(** * netket_fidelity.operator : single-qubit gate operators

    A shallow embedding of [netket_fidelity/operator/singlequbit_gates.py]
    and of the package's [__init__.py].

    Conventions of the embedding.
    - A basis configuration [sigma] (a one-dimensional jnp array) is a
      [list V]; [V] is the element type of the array and only its equality
      test is used by the code.  The casts [jnp.asarray(_, dtype=sigma.dtype)]
      are the identity on [V].
    - Matrix elements are computed in exact arithmetic: a [float] is an [R],
      a [complex] is a pair of reals.  Rounding is not modelled there; the
      amplitudes of Hadamard, which need only a division and a square root,
      are also given as the binary64 numbers the code returns.
    - A call that raises returns [None].
    - jnp indexing: a read with an index past the end is clamped to the last
      position (and raises on an empty axis); a write [.at[..].set(..)] with
      an index past the end is dropped.  Indices are naturals, so the
      negative (wrap-around) indices of Python are not part of the model.
    - [jax.vmap f] over the leading axis is the element-wise map of [f];
      [jax.jit f] computes what [f] computes, except that array arguments
      reach the body as immutable traced arrays. *)

From Stdlib Require Import Floats.
From Stdlib Require Import Reals Lra Lia.
From stdpp Require Import base option list strings.

(** ** Complex numbers, as far as the gates use them *)

Module Cplx.
Local Open Scope R_scope.

Definition C : Type := R * R.

Definition RtoC (x : R) : C := (x, 0).
Definition Ci : C := (0, 1).
Definition Copp (z : C) : C := (- fst z, - snd z).
Definition Cmult (z w : C) : C :=
  (fst z * fst w - snd z * snd w, fst z * snd w + snd z * fst w).

(** [abs(z) ** 2] *)
Definition Cnorm2 (z : C) : R := fst z * fst z + snd z * snd z.

End Cplx.
Import Cplx.

(** ** jnp / numpy primitives *)

(** [jnp.where(c, a, b)] on scalars. *)
Definition where_ {A : Type} (c : bool) (a b : A) : A := if c then a else b.

(** [a[i]] on a jnp axis: the index is clamped, an empty axis raises. *)
Definition getitem {A : Type} (a : list A) (i : nat) : option A :=
  a !! (i `min` pred (length a)).

(** [a[i, js]] with a sequence [js] of column indices. *)
Definition getitem_row {A : Type} (a : list (list A)) (i : nat) (js : list nat)
  : option (list A) :=
  row ← getitem a i; mapM (getitem row) js.

(** [a.at[i, j].get()] *)
Definition at2_get {A : Type} (a : list (list A)) (i j : nat) : option A :=
  row ← getitem a i; getitem row j.

(** [a.at[i].set(v)]: a write past the end is dropped. *)
Definition at_set {A : Type} (a : list A) (i : nat) (v : A) : list A :=
  <[i := v]> a.

(** [a.at[i, j].set(v)] *)
Definition at2_set {A : Type} (a : list (list A)) (i j : nat) (v : A)
  : list (list A) :=
  alter (λ row, <[j := v]> row) i a.

(** [jnp.tile(sigma, (n, 1))] *)
Definition tile {A : Type} (sigma : list A) (n : nat) : list (list A) :=
  replicate n sigma.

(** [jnp.zeros(n)] *)
Definition zeros {A : Type} (zero : A) (n : nat) : list A := replicate n zero.

(** [jnp.prod] of an integer array. *)
Definition jnp_prod (l : list Z) : Z := foldr Z.mul 1%Z l.

(** [jax.vmap(f, out_axes=(0, 0))] for an [f] that returns a pair. *)
Definition vmap {A B D : Type} (f : A → option (B * D)) (xs : list A)
  : option (list B * list D) :=
  rs ← mapM f xs; Some (fst <$> rs, snd <$> rs).

(** [x.reshape(-1, x.shape[-1])] on a two-dimensional batch [x] (a list of
    rows of one length): the batch itself.  With rows of length 0 the
    dimension -1 cannot be resolved and the reshape raises; an empty batch
    is taken to have rows of positive length. *)
Definition reshape_batch {A : Type} (x : list (list A))
  : option (list (list A)) :=
  if bool_decide (Forall (λ row, 0 < length row) x) then Some x else None.

(** [a.size] of a two-dimensional array. *)
Definition array_size {A : Type} (a : list (list A)) : nat := length (concat a).

(** [np.arange(start, stop, step)] for a positive [step]. *)
Definition np_arange (start stop step : Z) : list Z :=
  (λ k, start + Z.of_nat k * step)%Z
    <$> seq 0 (Z.to_nat ((stop - start + step - 1) / step)).

(** [sections[:] = values] on one-dimensional integer arrays.  A traced
    array (an argument of a [jax.jit] function, seen from its body) refuses
    item assignment (TypeError).  On a numpy buffer the values are
    broadcast: equal length, or a single value repeated; anything else is a
    ValueError.  The values are stored as they are given; the cast to the
    integer type of the buffer is [cast_int] below. *)
Definition setitem_all (traced : bool) (sections values : list Z)
  : option (list Z) :=
  if traced then None
  else if bool_decide (length values = length sections) then Some values
  else match values with
       | [v] => Some (replicate (length sections) v)
       | _ => None
       end.

(** The integer types of numpy, for the caller's [sections] buffer. *)
Inductive int_dtype :=
| int8 | int16 | int32 | int64
| uint8 | uint16 | uint32 | uint64.

Definition dtype_bits (dt : int_dtype) : Z :=
  match dt with
  | int8 | uint8 => 8
  | int16 | uint16 => 16
  | int32 | uint32 => 32
  | int64 | uint64 => 64
  end%Z.

Definition dtype_signed (dt : int_dtype) : bool :=
  match dt with
  | int8 | int16 | int32 | int64 => true
  | uint8 | uint16 | uint32 | uint64 => false
  end.

(** The largest value of the type. *)
Definition dtype_max (dt : int_dtype) : Z :=
  (if dtype_signed dt then 2 ^ (dtype_bits dt - 1) - 1
   else 2 ^ dtype_bits dt - 1)%Z.

(** The cast of an integer to the type, as an assignment into an array of
    that type does it: the value wraps around. *)
Definition cast_int (dt : int_dtype) (z : Z) : Z :=
  (let m := 2 ^ dtype_bits dt in
   if dtype_signed dt then (z + m / 2) `mod` m - m / 2 else z `mod` m)%Z.

(** The conversion of a (small) integer to binary64. *)
Definition float_of_Z (z : Z) : float :=
  match z with
  | Z0 => PrimFloat.zero
  | Zpos _ => PrimFloat.of_uint63 (Uint63.of_Z z)
  | Zneg p => PrimFloat.opp (PrimFloat.of_uint63 (Uint63.of_Z (Zpos p)))
  end.

(** [a.reshape(-1, width)] of the flattened data [flat]. *)
Definition reshape_rows {A : Type} (flat : list A) (width : nat)
  : option (list (list A)) :=
  if bool_decide (width = 0) then None
  else if bool_decide (length flat `mod` width = 0)
  then Some ((λ r, take width (drop (r * width) flat))
               <$> seq 0 (length flat `div` width))
  else None.

(** The sum of the entries of a real array. *)
Definition sum_R (l : list R) : R := foldr Rplus 0%R l.

(** ** The package initialiser

    [from M import n1, n2, ...] looks every name up in the namespace of the
    imported module, in order, and binds it; the first missing name raises
    ImportError.  ([M] is a plain module here, so there is no fall-back to a
    submodule of that name.) *)

Inductive import_outcome :=
| Bound (namespace : list string)
| ImportError (name : string).

Fixpoint import_from (module_ns names namespace : list string)
  : import_outcome :=
  match names with
  | [] => Bound namespace
  | n :: rest =>
      if bool_decide (n ∈ module_ns)
      then import_from module_ns rest (namespace ++ [n])
      else ImportError n
  end.

(** The names bound at the top level of [singlequbit_gates.py], in order. *)
Definition singlequbit_gates_namespace : list string :=
  [ "partial"; "np"; "jax"; "jnp"; "register_pytree_node_class";
    "DiscreteJaxOperator"; "spin";
    "Rx"; "get_conns_and_mels_Rx";
    "Ry"; "get_conns_and_mels_Ry";
    "Hadamard"; "get_conns_and_mels_Hadamard";
    "Hadamard_multi"; "get_conns_and_mels_Hadamard_multiple" ].

(** The names asked for by line 3 of [__init__.py]. *)
Definition init_import_names : list string :=
  [ "Rx"; "Ry"; "Hadamard"; "Measure_0"; "Measure_1" ].

(** What the installation decides: whether [netket.utils] can be imported
    (and then its namespace), and whether the imports at the top of
    [singlequbit_gates.py] succeed. *)
Record environment := mkEnvironment {
  netket_utils : option (list string);
  gates_dependencies : bool
}.

(** Running [netket_fidelity/operator/__init__.py] up to its line 3.  When
    an import outside the repository fails, the name carried by the error
    stands for whichever module or name was missing. *)
Definition operator_init (env : environment) : import_outcome :=
  match netket_utils env with
  | None => ImportError "netket.utils"
  | Some utils_ns =>
      match import_from utils_ns ["_hide_submodules"] [] with
      | ImportError n => ImportError n
      | Bound namespace =>
          if gates_dependencies env
          then import_from singlequbit_gates_namespace init_import_names
                           namespace
          else ImportError "singlequbit_gates"
      end
  end.

(** [getattr(netket_fidelity.operator, name)] after [import]: the package
    object exists only when its initialiser ran to the end (the call to
    [_hide_submodules] on its last line is not modelled). *)
Definition package_attribute (env : environment) (name : string) : bool :=
  match operator_init env with
  | Bound namespace => bool_decide (name ∈ namespace)
  | ImportError _ => false
  end.

(** ** The gates *)

Section Gates.
Context {V : Type} `{!EqDecision V}.

(** [hi.local_states] (its two entries) and [hi.size]. *)
Record Hilbert := mkHilbert {
  local_states : V * V;
  size : nat
}.

(** A basis configuration. *)
Local Abbreviation config := (list V).

(** [jnp.where(current_state == state_0, state_1, state_0)] *)
Definition flipped (ls : V * V) (current_state : V) : V :=
  let state_0 := fst ls in
  let state_1 := snd ls in
  where_ (bool_decide (current_state = state_0)) state_1 state_0.

(** [jnp.where(v == local_states[0], 1, -1)] *)
Definition sign (ls : V * V) (v : V) : Z :=
  where_ (bool_decide (v = fst ls)) 1%Z (-1)%Z.

(** *** Rx *)

Definition get_conns_and_mels_Rx
    (sigma : config) (idx : nat) (angle : R) (ls : V * V)
  : option (list config * list C) :=
  let conns := tile sigma 2 in
  current_state ← getitem sigma idx;
  let flipped_state := flipped ls current_state in
  let conns := at2_set conns 1 idx flipped_state in
  let mels := zeros (RtoC 0) 2 in
  let mels := at_set mels 0 (RtoC (cos (angle / 2))) in
  let mels := at_set mels 1 (Cmult (Copp Ci) (RtoC (sin (angle / 2)))) in
  Some (conns, mels).

(** *** Ry *)

Definition get_conns_and_mels_Ry
    (sigma : config) (idx : nat) (angle : R) (ls : V * V)
  : option (list config * list C) :=
  let conns := tile sigma 2 in
  current_state ← getitem sigma idx;
  let flipped_state := flipped ls current_state in
  let conns := at2_set conns 1 idx flipped_state in
  let mels := zeros (RtoC 0) 2 in
  let mels := at_set mels 0 (RtoC (cos (angle / 2))) in
  v ← at2_get conns 0 idx;
  let phase_factor := sign ls v in
  let mels := at_set mels 1 (RtoC (IZR phase_factor * sin (angle / 2))) in
  Some (conns, mels).

(** *** Hadamard *)

Definition get_conns_and_mels_Hadamard
    (sigma : config) (idx : nat) (ls : V * V)
  : option (list config * list R) :=
  let conns := tile sigma 2 in
  current_state ← getitem sigma idx;
  let flipped_state := flipped ls current_state in
  let conns := at2_set conns 1 idx flipped_state in
  let mels := zeros 0%R 2 in
  let mels := at_set mels 1 (1 / sqrt 2)%R in
  state_value ← at2_get conns 0 idx;
  let mels_value := (IZR (sign ls state_value) / sqrt 2)%R in
  let mels := at_set mels 0 mels_value in
  Some (conns, mels).

(** *** Hadamard_multi *)

(** [[idx[j] for j in range(len(idx)) if (i >> j) & 1]] *)
Definition combination (idx : list nat) (i : nat) : list nat :=
  omap (λ j, if bool_decide (Nat.land (Nat.shiftr i j) 1 ≠ 0)
             then idx !! j else None)
       (seq 0 (length idx)).

(** The inner loop, [for index in combination]. *)
Fixpoint flip_loop (sigma : config) (ls : V * V) (i : nat)
    (combination : list nat) (conns : list config) : option (list config) :=
  match combination with
  | [] => Some conns
  | index :: rest =>
      current_state ← getitem sigma index;
      let flipped_state := flipped ls current_state in
      flip_loop sigma ls i rest (at2_set conns i index flipped_state)
  end.

(** The outer loop, [for i in range(num_combinations)], over the values
    [range_] that [i] still has to take. *)
Fixpoint combination_loop (sigma : config) (idx : list nat) (ls : V * V)
    (range_ : list nat) (conns : list config) (mels : list R)
  : option (list config * list R) :=
  match range_ with
  | [] => Some (conns, mels)
  | i :: rest =>
      conns ← flip_loop sigma ls i (combination idx i) conns;
      values ← getitem_row conns i idx;
      let mels_value :=
        (IZR (jnp_prod (sign ls <$> values))
         / sqrt (INR (2 ^ length idx)))%R in
      let mels := at_set mels i mels_value in
      combination_loop sigma idx ls rest conns mels
  end.

Definition get_conns_and_mels_Hadamard_multiple
    (sigma : config) (idx : list nat) (ls : V * V)
  : option (list config * list R) :=
  let num_combinations := 2 ^ length idx in
  let conns := tile sigma num_combinations in
  let mels := zeros 0%R num_combinations in
  combination_loop sigma idx ls (seq 0 num_combinations) conns mels.

(** The effect of one round of the inner loop on the row it writes:
    site [q] of the row receives the flipped value of [sigma] at [q]. *)
Definition flip_site (sigma : config) (ls : V * V) (c : config) (q : nat)
  : config :=
  match sigma !! q with
  | Some v => <[q := flipped ls v]> c
  | None => c
  end.

(** *** The operator classes *)

Inductive gate :=
| Rx (hi : Hilbert) (idx : nat) (angle : R)
| Ry (hi : Hilbert) (idx : nat) (angle : R)
| Hadamard (hi : Hilbert) (idx : nat)
| Hadamard_multi (hi : Hilbert) (idx : list nat).

(** A Python object handed to [__eq__]. *)
Inductive pyobj :=
| Obj (g : gate)
| Foreign.

(** The value of an [idx] attribute: an integer for the single-qubit gates,
    a sequence of integers for [Hadamard_multi]. *)
Inductive idx_value :=
| IdxInt (n : nat)
| IdxSeq (l : list nat).

(** Python's [==] on these values; an integer never equals a sequence. *)
Definition idx_eq (a b : idx_value) : bool :=
  match a, b with
  | IdxInt m, IdxInt n => bool_decide (m = n)
  | IdxSeq l, IdxSeq k => bool_decide (l = k)
  | _, _ => false
  end.

(** [==] on angles. *)
Definition angle_eq (a b : R) : bool :=
  if Req_dec_T a b then true else false.

(** [self.__eq__(o)], by the class of [self]. *)
Definition eq_ (self : gate) (o : pyobj) : bool :=
  match self with
  | Rx _ idx angle =>
      match o with
      | Obj (Rx _ o_idx o_angle) =>
          idx_eq (IdxInt o_idx) (IdxInt idx) && angle_eq o_angle angle
      | _ => false
      end
  | Ry _ idx angle =>
      match o with
      | Obj (Ry _ o_idx o_angle) =>
          idx_eq (IdxInt o_idx) (IdxInt idx) && angle_eq o_angle angle
      | _ => false
      end
  | Hadamard _ idx =>
      match o with
      | Obj (Hadamard _ o_idx) => idx_eq (IdxInt o_idx) (IdxInt idx)
      | _ => false
      end
  | Hadamard_multi _ idx =>
      match o with
      | Obj (Hadamard _ o_idx) => idx_eq (IdxInt o_idx) (IdxSeq idx)
      | _ => false
      end
  end.

(** The property [H]. *)
Definition H (self : gate) : gate :=
  match self with
  | Rx hi idx angle => Rx hi idx (- angle)
  | Ry hi idx angle => Ry hi idx (- angle * 2)
  | Hadamard hi idx => Hadamard hi idx
  | Hadamard_multi hi idx => Hadamard_multi hi idx
  end.

(** The property [max_conn_size]. *)
Definition max_conn_size (self : gate) : nat :=
  match self with
  | Rx _ _ _ | Ry _ _ _ | Hadamard _ _ => 2
  | Hadamard_multi _ idx => 2 ^ length idx
  end.

(** [get_conn_padded] on a two-dimensional batch [x]; the reshapes of the
    two results back to the batch shape are the identity on it. *)
Definition Rx_get_conn_padded (hi : Hilbert) (idx : nat) (angle : R)
    (x : list config) : option (list (list config) * list (list C)) :=
  xr ← reshape_batch x;
  vmap (λ sigma, get_conns_and_mels_Rx sigma idx angle (local_states hi)) xr.

Definition Ry_get_conn_padded (hi : Hilbert) (idx : nat) (angle : R)
    (x : list config) : option (list (list config) * list (list C)) :=
  xr ← reshape_batch x;
  vmap (λ sigma, get_conns_and_mels_Ry sigma idx angle (local_states hi)) xr.

Definition Hadamard_get_conn_padded (hi : Hilbert) (idx : nat)
    (x : list config) : option (list (list config) * list (list R)) :=
  xr ← reshape_batch x;
  vmap (λ sigma, get_conns_and_mels_Hadamard sigma idx (local_states hi)) xr.

Definition Hadamard_multi_get_conn_padded (hi : Hilbert) (idx : list nat)
    (x : list config) : option (list (list config) * list (list R)) :=
  xr ← reshape_batch x;
  vmap (λ sigma,
          get_conns_and_mels_Hadamard_multiple sigma idx (local_states hi))
       xr.

(** The body shared, word for word, by the four [get_conn_flattened]
    methods, after the call of [get_conn_padded].  The first component is
    the content of the caller's [sections] buffer when the call is over,
    the second the returned pair, or [None] when the call raised. *)
Definition get_conn_flattened_body {M : Type} (traced : bool) (hi : Hilbert)
    (padded : option (list (list config) * list (list M)))
    (sections : list Z)
  : list Z * option (list config * list M) :=
  match padded with
  | None => (sections, None)
  | Some (xp, mels) =>
      match setitem_all traced sections
              (np_arange 2 (Z.of_nat (array_size mels) + 2) 2) with
      | None => (sections, None)
      | Some sections =>
          (sections,
           xp ← reshape_rows (concat (concat xp)) (size hi);
           Some (xp, concat mels))
      end
  end.

(** [Rx.get_conn_flattened] and [Ry.get_conn_flattened] are plain methods;
    those of [Hadamard] and [Hadamard_multi] are wrapped in [jax.jit]. *)
Definition Rx_get_conn_flattened (hi : Hilbert) (idx : nat) (angle : R)
    (x : list config) (sections : list Z) :=
  get_conn_flattened_body false hi (Rx_get_conn_padded hi idx angle x)
    sections.

Definition Ry_get_conn_flattened (hi : Hilbert) (idx : nat) (angle : R)
    (x : list config) (sections : list Z) :=
  get_conn_flattened_body false hi (Ry_get_conn_padded hi idx angle x)
    sections.

Definition Hadamard_get_conn_flattened (hi : Hilbert) (idx : nat)
    (x : list config) (sections : list Z) :=
  get_conn_flattened_body true hi (Hadamard_get_conn_padded hi idx x)
    sections.

Definition Hadamard_multi_get_conn_flattened (hi : Hilbert) (idx : list nat)
    (x : list config) (sections : list Z) :=
  get_conn_flattened_body true hi (Hadamard_multi_get_conn_padded hi idx x)
    sections.

(** [get_conns_and_mels_Hadamard] with the amplitudes as the binary64
    numbers of the code (jax in 64-bit mode, as NetKet sets it): the
    integers 1, -1 and 2 are converted, the square root and the divisions
    are those of IEEE 754. *)
Definition get_conns_and_mels_Hadamard_f64
    (sigma : config) (idx : nat) (ls : V * V)
  : option (list config * list float) :=
  let conns := tile sigma 2 in
  current_state ← getitem sigma idx;
  let flipped_state := flipped ls current_state in
  let conns := at2_set conns 1 idx flipped_state in
  let mels := zeros PrimFloat.zero 2 in
  let mels :=
    at_set mels 1
      (PrimFloat.div (float_of_Z 1) (PrimFloat.sqrt (float_of_Z 2))) in
  state_value ← at2_get conns 0 idx;
  let mels_value :=
    PrimFloat.div (float_of_Z (sign ls state_value))
      (PrimFloat.sqrt (float_of_Z 2)) in
  let mels := at_set mels 0 mels_value in
  Some (conns, mels).

(** The body of [get_conn_flattened] with the integer type [dt] of the
    caller's buffer made explicit: the assignment casts the offsets to
    it. *)
Definition get_conn_flattened_body_dtype {M : Type} (dt : int_dtype)
    (traced : bool) (hi : Hilbert)
    (padded : option (list (list config) * list (list M)))
    (sections : list Z)
  : list Z * option (list config * list M) :=
  match padded with
  | None => (sections, None)
  | Some (xp, mels) =>
      match setitem_all traced sections
              (cast_int dt
                 <$> np_arange 2 (Z.of_nat (array_size mels) + 2) 2) with
      | None => (sections, None)
      | Some sections =>
          (sections,
           xp ← reshape_rows (concat (concat xp)) (size hi);
           Some (xp, concat mels))
      end
  end.

Definition Rx_get_conn_flattened_dtype (dt : int_dtype) (hi : Hilbert)
    (idx : nat) (angle : R) (x : list config) (sections : list Z) :=
  get_conn_flattened_body_dtype dt false hi
    (Rx_get_conn_padded hi idx angle x) sections.

Definition Ry_get_conn_flattened_dtype (dt : int_dtype) (hi : Hilbert)
    (idx : nat) (angle : R) (x : list config) (sections : list Z) :=
  get_conn_flattened_body_dtype dt false hi
    (Ry_get_conn_padded hi idx angle x) sections.

(** *** Attributes and pytree registration *)

(** [type(self)] *)
Inductive gate_class :=
| Rx_class
| Ry_class
| Hadamard_class
| Hadamard_multi_class.

Definition class_of (self : gate) : gate_class :=
  match self with
  | Rx _ _ _ => Rx_class
  | Ry _ _ _ => Ry_class
  | Hadamard _ _ => Hadamard_class
  | Hadamard_multi _ _ => Hadamard_multi_class
  end.

(** The property [hilbert] of the base class. *)
Definition hilbert (self : gate) : Hilbert :=
  match self with
  | Rx hi _ _ | Ry hi _ _ | Hadamard hi _ | Hadamard_multi hi _ => hi
  end.

(** The property [idx]. *)
Definition idx (self : gate) : idx_value :=
  match self with
  | Rx _ i _ | Ry _ i _ | Hadamard _ i => IdxInt i
  | Hadamard_multi _ l => IdxSeq l
  end.

(** The property [angle]; the Hadamard classes have none (AttributeError). *)
Definition angle (self : gate) : option R :=
  match self with
  | Rx _ _ a | Ry _ _ a => Some a
  | Hadamard _ _ | Hadamard_multi _ _ => None
  end.

(** [tree_flatten] and [tree_unflatten], class by class.  [children] is the
    tuple of differentiable leaves, [aux_data] the pair of the Hilbert space
    and the target(s).  The unpacking [(angle,) = children] raises unless
    there is exactly one child; the Hadamard classes do not look at
    [children]. *)
Definition Rx_tree_flatten (hi : Hilbert) (idx : nat) (angle : R)
  : list R * (Hilbert * nat) :=
  ([angle], (hi, idx)).

Definition Rx_tree_unflatten (aux_data : Hilbert * nat) (children : list R)
  : option gate :=
  match children with
  | [angle] => Some (Rx (fst aux_data) (snd aux_data) angle)
  | _ => None
  end.

Definition Ry_tree_flatten (hi : Hilbert) (idx : nat) (angle : R)
  : list R * (Hilbert * nat) :=
  ([angle], (hi, idx)).

Definition Ry_tree_unflatten (aux_data : Hilbert * nat) (children : list R)
  : option gate :=
  match children with
  | [angle] => Some (Ry (fst aux_data) (snd aux_data) angle)
  | _ => None
  end.

Definition Hadamard_tree_flatten (hi : Hilbert) (idx : nat)
  : list R * (Hilbert * nat) :=
  ([], (hi, idx)).

Definition Hadamard_tree_unflatten (aux_data : Hilbert * nat)
    (children : list R) : option gate :=
  Some (Hadamard (fst aux_data) (snd aux_data)).

Definition Hadamard_multi_tree_flatten (hi : Hilbert) (idx : list nat)
  : list R * (Hilbert * list nat) :=
  ([], (hi, idx)).

Definition Hadamard_multi_tree_unflatten (aux_data : Hilbert * list nat)
    (children : list R) : option gate :=
  Some (Hadamard_multi (fst aux_data) (snd aux_data)).

(** ** Properties *)

(** *** Indexing *)

Lemma getitem_lookup {A : Type} (a : list A) (i : nat) (v : A) :
  a !! i = Some v → getitem a i = Some v.
Proof.
  intros Hv. unfold getitem.
  apply lookup_lt_Some in Hv as Hlt.
  replace (i `min` pred (length a)) with i by lia. exact Hv.
Qed.

Lemma getitem_lt {A : Type} (a : list A) (i : nat) :
  i < length a → getitem a i = a !! i.
Proof.
  intros Hlt. unfold getitem.
  replace (i `min` pred (length a)) with i by lia. reflexivity.
Qed.

Lemma getitem_clamped {A : Type} (a : list A) (i : nat) :
  length a ≤ i → getitem a i = last a.
Proof.
  intros Hge. unfold getitem.
  replace (i `min` pred (length a)) with (pred (length a)) by lia.
  symmetry. apply last_lookup.
Qed.

Lemma getitem_is_Some {A : Type} (a : list A) (i : nat) :
  is_Some (getitem a i) ↔ a ≠ [].
Proof.
  unfold getitem. rewrite lookup_lt_is_Some.
  destruct a as [|x a]; simpl; split; intros; try lia; try congruence.
Qed.

(** *** Rx *)

Lemma Cmult_minus_i (x : R) :
  Cmult (Copp Ci) (RtoC x) = (0, - x)%R.
Proof.
  unfold Cmult, Copp, Ci, RtoC; simpl. f_equal; lra.
Qed.

Lemma flipped_state_0 (ls : V * V) (v : V) :
  v = fst ls → flipped ls v = snd ls.
Proof.
  intros ->. unfold flipped, where_. rewrite bool_decide_eq_true_2; done.
Qed.

Lemma flipped_not_state_0 (ls : V * V) (v : V) :
  v ≠ fst ls → flipped ls v = fst ls.
Proof.
  intros Hne. unfold flipped, where_. rewrite bool_decide_eq_false_2; done.
Qed.

Lemma flipped_state_1 (ls : V * V) (v : V) :
  v = snd ls → flipped ls v = fst ls.
Proof.
  intros ->. unfold flipped, where_.
  case_bool_decide as Heq; [exact Heq | reflexivity].
Qed.

Lemma get_conns_and_mels_Rx_eq (sigma : config) (idx : nat) (angle : R)
    (ls : V * V) (v : V) :
  sigma !! idx = Some v →
  get_conns_and_mels_Rx sigma idx angle ls =
    Some ([sigma; <[idx := flipped ls v]> sigma],
          [RtoC (cos (angle / 2)); (0, - sin (angle / 2))%R]).
Proof.
  intros Hv. unfold get_conns_and_mels_Rx.
  rewrite (getitem_lookup _ _ _ Hv). simpl.
  rewrite Cmult_minus_i. reflexivity.
Qed.

(** C2.  On a configuration [sigma] with a valid target [idx], the connect
    operation of Rx returns two connections and two amplitudes: the first
    connection is [sigma], the second is [sigma] with the value at [idx]
    replaced (state_0 becomes state_1 and state_1 becomes state_0); the
    first amplitude is cos(angle/2), the second is -i sin(angle/2). *)
Theorem Rx_connect (sigma : config) (idx : nat) (angle : R) (ls : V * V)
    (v : V) :
  sigma !! idx = Some v →
  ∃ conns mels,
    get_conns_and_mels_Rx sigma idx angle ls = Some (conns, mels)
    ∧ length conns = 2 ∧ length mels = 2
    ∧ conns !! 0 = Some sigma
    ∧ (∃ c, conns !! 1 = Some c
          ∧ length c = length sigma
          ∧ (∀ p, p ≠ idx → c !! p = sigma !! p)
          ∧ (v = fst ls → c !! idx = Some (snd ls))
          ∧ (v = snd ls → c !! idx = Some (fst ls)))
    ∧ mels !! 0 = Some (cos (angle / 2), 0)%R
    ∧ mels !! 1 = Some (0, - sin (angle / 2))%R.
Proof.
  intros Hv. eexists _, _.
  split; [apply get_conns_and_mels_Rx_eq, Hv|].
  apply lookup_lt_Some in Hv as Hlt.
  do 3 (split; [reflexivity|]).
  split; [|split; reflexivity].
  exists (<[idx := flipped ls v]> sigma). split; [reflexivity|].
  split; [apply length_insert|].
  split; [intros p Hp; apply list_lookup_insert_ne; congruence|].
  split; intros Heq; rewrite list_lookup_insert_eq by exact Hlt; f_equal.
  - apply flipped_state_0, Heq.
  - apply flipped_state_1, Heq.
Qed.

(** *** Ry *)

Lemma sign_state_0 (ls : V * V) (v : V) : v = fst ls → sign ls v = 1%Z.
Proof.
  intros ->. unfold sign, where_. rewrite bool_decide_eq_true_2; done.
Qed.

Lemma sign_not_state_0 (ls : V * V) (v : V) :
  v ≠ fst ls → sign ls v = (-1)%Z.
Proof.
  intros Hne. unfold sign, where_. rewrite bool_decide_eq_false_2; done.
Qed.

Lemma sign_cases (ls : V * V) (v : V) : sign ls v = 1%Z ∨ sign ls v = (-1)%Z.
Proof.
  destruct (decide (v = fst ls)) as [Heq|Hne].
  - left; apply sign_state_0, Heq.
  - right; apply sign_not_state_0, Hne.
Qed.

(** With two different local states the sign read on the flipped value is
    the opposite of the sign read on the value itself. *)
Lemma sign_flipped (ls : V * V) (v : V) :
  fst ls ≠ snd ls → sign ls (flipped ls v) = (- sign ls v)%Z.
Proof.
  intros Hne. destruct (decide (v = fst ls)) as [Heq|Hv].
  - rewrite (flipped_state_0 _ _ Heq), (sign_state_0 _ _ Heq).
    apply sign_not_state_0. congruence.
  - rewrite (flipped_not_state_0 _ _ Hv), (sign_not_state_0 _ _ Hv).
    apply sign_state_0. reflexivity.
Qed.

Lemma get_conns_and_mels_Ry_eq (sigma : config) (idx : nat) (angle : R)
    (ls : V * V) (v : V) :
  sigma !! idx = Some v →
  get_conns_and_mels_Ry sigma idx angle ls =
    Some ([sigma; <[idx := flipped ls v]> sigma],
          [RtoC (cos (angle / 2));
           RtoC (IZR (sign ls v) * sin (angle / 2))]).
Proof.
  intros Hv. unfold get_conns_and_mels_Ry.
  rewrite (getitem_lookup _ _ _ Hv). simpl.
  unfold at2_get. simpl. rewrite (getitem_lookup _ _ _ Hv). reflexivity.
Qed.

(** C3.  The off-diagonal amplitude of Ry is s sin(angle/2), where s is +1
    when the input configuration holds state_0 at [idx] and -1 otherwise:
    the sign is read on row 0 of the connections, which is the input, while
    the flipped value sits in row 1. *)
Theorem Ry_offdiagonal_sign (sigma : config) (idx : nat) (angle : R)
    (ls : V * V) (v : V) :
  sigma !! idx = Some v →
  ∃ conns mels,
    get_conns_and_mels_Ry sigma idx angle ls = Some (conns, mels)
    ∧ conns !! 0 = Some sigma
    ∧ conns !! 1 = Some (<[idx := flipped ls v]> sigma)
    ∧ (v = fst ls → mels !! 1 = Some (sin (angle / 2), 0)%R)
    ∧ (v ≠ fst ls → mels !! 1 = Some (- sin (angle / 2), 0)%R).
Proof.
  intros Hv. eexists _, _.
  split; [apply get_conns_and_mels_Ry_eq, Hv|].
  do 2 (split; [reflexivity|]).
  split; intros Hs; simpl; unfold RtoC; do 2 f_equal.
  - rewrite (sign_state_0 _ _ Hs). lra.
  - rewrite (sign_not_state_0 _ _ Hs). lra.
Qed.

(** *** Hadamard *)

Lemma get_conns_and_mels_Hadamard_eq (sigma : config) (idx : nat)
    (ls : V * V) (v : V) :
  sigma !! idx = Some v →
  get_conns_and_mels_Hadamard sigma idx ls =
    Some ([sigma; <[idx := flipped ls v]> sigma],
          [IZR (sign ls v) / sqrt 2; 1 / sqrt 2]%R).
Proof.
  intros Hv. unfold get_conns_and_mels_Hadamard.
  rewrite (getitem_lookup _ _ _ Hv). simpl.
  unfold at2_get. simpl. rewrite (getitem_lookup _ _ _ Hv). reflexivity.
Qed.

(** *** Adjoints and equality *)

Lemma angle_eq_true (a b : R) : angle_eq a b = true ↔ a = b.
Proof. unfold angle_eq. destruct (Req_dec_T a b); split; congruence. Qed.

Lemma angle_eq_refl (a : R) : angle_eq a a = true.
Proof. apply angle_eq_true. reflexivity. Qed.

Lemma Rx_eq_iff (hi hi' : Hilbert) (idx idx' : nat) (angle angle' : R) :
  eq_ (Rx hi idx angle) (Obj (Rx hi' idx' angle')) = true
  ↔ idx' = idx ∧ angle' = angle.
Proof.
  simpl. rewrite andb_true_iff, bool_decide_eq_true, angle_eq_true. done.
Qed.

Lemma Ry_eq_iff (hi hi' : Hilbert) (idx idx' : nat) (angle angle' : R) :
  eq_ (Ry hi idx angle) (Obj (Ry hi' idx' angle')) = true
  ↔ idx' = idx ∧ angle' = angle.
Proof.
  simpl. rewrite andb_true_iff, bool_decide_eq_true, angle_eq_true. done.
Qed.

Lemma Hadamard_eq_iff (hi hi' : Hilbert) (idx idx' : nat) :
  eq_ (Hadamard hi idx) (Obj (Hadamard hi' idx')) = true ↔ idx' = idx.
Proof. simpl. apply bool_decide_eq_true. Qed.

(** Equality of the three single-qubit gates is reflexive. *)
Lemma eq_refl_single_qubit (g : gate) :
  (∀ hi idx, g ≠ Hadamard_multi hi idx) → eq_ g (Obj g) = true.
Proof.
  destruct g as [hi idx angle|hi idx angle|hi idx|hi idx]; intros Hg.
  - apply Rx_eq_iff. done.
  - apply Ry_eq_iff. done.
  - apply Hadamard_eq_iff. done.
  - destruct (Hg hi idx). reflexivity.
Qed.

(** Comparing with a foreign object answers [False]. *)
Lemma eq_foreign (g : gate) : eq_ g Foreign = false.
Proof. destruct g; reflexivity. Qed.

(** [Hadamard_multi.__eq__] tests [isinstance(o, Hadamard)] and then
    compares the sequence [self.idx] with [o.idx].  Against the objects of
    this development, where the [idx] of a [Hadamard] is an integer as its
    docstring has it, the answer is [False].  (A [Hadamard] built with a
    tuple as [idx] is not among them: with such an operand the comparison
    of the two tuples can answer [True].) *)
Lemma Hadamard_multi_eq_false (hi : Hilbert) (idx : list nat) (o : pyobj) :
  eq_ (Hadamard_multi hi idx) o = false.
Proof. destruct o as [[]|]; reflexivity. Qed.

(** Gates of two different classes, with integer targets for Rx, Ry and
    Hadamard, do not compare equal. *)
Lemma eq_other_class (g g' : gate) :
  eq_ g (Obj g') = true →
  match g, g' with
  | Rx _ _ _, Rx _ _ _ | Ry _ _ _, Ry _ _ _ | Hadamard _ _, Hadamard _ _ =>
      True
  | _, _ => False
  end.
Proof. destruct g, g'; simpl; try done. Qed.

(** C4.  The adjoint of Ry(hi, idx, theta) is Ry(hi, idx, -2 theta), as an
    object and under [==]; the adjoint of Rx only negates the angle. *)
Theorem Ry_adjoint (hi : Hilbert) (idx : nat) (theta : R) :
  H (Ry hi idx theta) = Ry hi idx (-2 * theta)
  ∧ eq_ (H (Ry hi idx theta)) (Obj (Ry hi idx (-2 * theta))) = true
  ∧ H (Rx hi idx theta) = Rx hi idx (- theta).
Proof.
  assert (Ha : (- theta * 2 = -2 * theta)%R) by lra.
  split; [simpl; f_equal; exact Ha|].
  split; [|reflexivity].
  apply Ry_eq_iff. split; [reflexivity|]. symmetry; exact Ha.
Qed.

(** The adjoint of Ry is not the gate with the negated angle, unless the
    angle is zero. *)
Lemma adjoint_of_Ry_is_not_negation (hi : Hilbert) (idx : nat) (theta : R) :
  theta ≠ 0%R →
  eq_ (H (Ry hi idx theta)) (Obj (Ry hi idx (- theta))) = false.
Proof.
  intros Hne. apply not_true_is_false. intros Heq.
  apply Ry_eq_iff in Heq as [_ Heq]. apply Hne. lra.
Qed.

(** *** Hadamard_multi *)

Lemma bit_test (i j : nat) :
  Nat.land (Nat.shiftr i j) 1 ≠ 0 ↔ Nat.testbit i j = true.
Proof.
  rewrite Nat.testbit_odd, <- Nat.bit0_odd, Nat.bit0_eqb, Nat.eqb_eq.
  generalize (Nat.shiftr i j); intros x.
  rewrite (Nat.land_ones x 1 : Nat.land x 1 = x `mod` 2).
  pose proof (Nat.mod_upper_bound x 2). lia.
Qed.

Lemma elem_of_combination (idx : list nat) (i p : nat) :
  p ∈ combination idx i ↔ ∃ j, idx !! j = Some p ∧ Nat.testbit i j = true.
Proof.
  unfold combination. rewrite list_elem_of_omap. split.
  - intros (j & _ & Hj). case_bool_decide as Hbit; [|done].
    exists j. split; [exact Hj|]. apply bit_test, Hbit.
  - intros (j & Hj & Hbit). exists j. split.
    + apply elem_of_seq. apply lookup_lt_Some in Hj. lia.
    + rewrite bool_decide_eq_true_2; [exact Hj|]. apply bit_test, Hbit.
Qed.

Lemma combination_Forall (P : nat → Prop) (idx : list nat) (i : nat) :
  Forall P idx → Forall P (combination idx i).
Proof.
  rewrite !Forall_forall. intros HP p Hp.
  apply elem_of_combination in Hp as (j & Hj & _).
  apply HP. eapply list_elem_of_lookup_2, Hj.
Qed.

Lemma flip_site_length (sigma : config) (ls : V * V) (c : config) (q : nat) :
  length (flip_site sigma ls c q) = length c.
Proof.
  unfold flip_site. destruct (sigma !! q); [apply length_insert|done].
Qed.

Lemma flip_sites_length (sigma : config) (ls : V * V) (comb : list nat)
    (c : config) :
  length (foldl (flip_site sigma ls) c comb) = length c.
Proof.
  revert c. induction comb as [|q comb IH]; intros c; simpl; [done|].
  rewrite IH. apply flip_site_length.
Qed.

Lemma flip_site_lookup (sigma : config) (ls : V * V) (c : config)
    (q p : nat) :
  length c = length sigma →
  flip_site sigma ls c q !! p =
    if decide (p = q) then flipped ls <$> sigma !! p else c !! p.
Proof.
  intros Hlen. unfold flip_site. case_decide as Hpq.
  - subst p. destruct (sigma !! q) as [v|] eqn:Hv; simpl.
    + apply list_lookup_insert_eq. rewrite Hlen.
      eapply lookup_lt_Some, Hv.
    + apply lookup_ge_None. rewrite Hlen. apply lookup_ge_None, Hv.
  - destruct (sigma !! q); [|done].
    apply list_lookup_insert_ne. congruence.
Qed.

Lemma flip_sites_lookup (sigma : config) (ls : V * V) (comb : list nat)
    (c : config) (p : nat) :
  length c = length sigma →
  foldl (flip_site sigma ls) c comb !! p =
    if decide (p ∈ comb) then flipped ls <$> sigma !! p else c !! p.
Proof.
  revert c. induction comb as [|q comb IH]; intros c Hlen; cbn [foldl].
  - rewrite decide_False; [done|]. apply not_elem_of_nil.
  - rewrite IH by (rewrite flip_site_length; exact Hlen).
    rewrite flip_site_lookup by exact Hlen.
    destruct (decide (p ∈ comb)) as [Hin|Hnin].
    + rewrite decide_True; [done|]. right; exact Hin.
    + destruct (decide (p = q)) as [->|Hne].
      * rewrite decide_True; [done|]. left.
      * rewrite decide_False; [done|].
        rewrite elem_of_cons. intros [?|?]; done.
Qed.

Lemma flip_loop_eq (sigma : config) (ls : V * V) (i : nat)
    (comb : list nat) (conns : list config) :
  Forall (λ q, q < length sigma) comb →
  flip_loop sigma ls i comb conns =
    Some (alter (λ c, foldl (flip_site sigma ls) c comb) i conns).
Proof.
  revert conns. induction comb as [|q comb IH]; intros conns Hvalid; simpl.
  - rewrite list_alter_id; done.
  - apply Forall_cons in Hvalid as [Hq Hvalid].
    destruct (lookup_lt_is_Some_2 sigma q Hq) as [v Hv].
    rewrite (getitem_lookup _ _ _ Hv). simpl.
    rewrite (IH _ Hvalid). unfold at2_set.
    rewrite list_alter_alter_eq. f_equal.
    apply list_alter_ext; [|done]. intros c _. simpl.
    f_equal. unfold flip_site. rewrite Hv. reflexivity.
Qed.

Lemma getitem_row_eq (conns : list config) (i : nat) (idx : list nat)
    (c : config) :
  conns !! i = Some c →
  Forall (λ q, q < length c) idx →
  ∃ vals, getitem_row conns i idx = Some vals
          ∧ Forall2 (λ q v, c !! q = Some v) idx vals.
Proof.
  intros Hc Hvalid. unfold getitem_row.
  rewrite (getitem_lookup _ _ _ Hc). simpl.
  rewrite (Forall_mapM_ext _ (λ q, c !! q)).
  - destruct (mapM (λ q, c !! q) idx) as [vals|] eqn:Hvals.
    + exists vals. split; [done|]. apply mapM_Some_1, Hvals.
    + apply mapM_None_1, Exists_exists in Hvals as (q & Hq & Hnone).
      rewrite Forall_forall in Hvalid. apply Hvalid in Hq.
      apply lookup_ge_None in Hnone. lia.
  - eapply Forall_impl; [exact Hvalid|]. intros q Hq. apply getitem_lt, Hq.
Qed.
(** The outer loop: every round [i] of [range_] rewrites row [i] of [conns]
    and entry [i] of [mels], and nothing else. *)
Lemma combination_loop_eq (sigma : config) (idx : list nat) (ls : V * V) :
  Forall (λ q, q < length sigma) idx →
  ∀ (range_ : list nat) (conns : list config) (mels : list R),
    NoDup range_ →
    Forall (λ i, i < length mels) range_ →
    (∀ i, i ∈ range_ → conns !! i = Some sigma) →
    ∃ conns' mels',
      combination_loop sigma idx ls range_ conns mels = Some (conns', mels')
      ∧ length conns' = length conns
      ∧ length mels' = length mels
      ∧ (∀ i, i ∉ range_ →
           conns' !! i = conns !! i ∧ mels' !! i = mels !! i)
      ∧ (∀ i, i ∈ range_ →
           ∃ vals,
             conns' !! i =
               Some (foldl (flip_site sigma ls) sigma (combination idx i))
             ∧ Forall2
                 (λ q v,
                    foldl (flip_site sigma ls) sigma (combination idx i) !! q
                    = Some v) idx vals
             ∧ mels' !! i =
                 Some (IZR (jnp_prod (sign ls <$> vals))
                       / sqrt (INR (2 ^ length idx)))%R).
Proof.
  intros Hvalid range_.
  induction range_ as [|i rest IH]; intros conns mels Hnodup Hlen Hrows.
  - exists conns, mels. split; [reflexivity|]. do 3 (split; [done|]).
    intros i Hi. by apply not_elem_of_nil in Hi.
  - apply NoDup_cons in Hnodup as [Hi Hnodup].
    apply Forall_cons in Hlen as [Hilen Hlen].
    cbn [combination_loop].
    rewrite flip_loop_eq by (apply combination_Forall, Hvalid).
    cbn [mbind option_bind].
    set (row := foldl (flip_site sigma ls) sigma (combination idx i)).
    set (conns1 := alter _ i conns).
    assert (Hrow : conns1 !! i = Some row).
    { unfold conns1. rewrite list_lookup_alter_eq, Hrows by left. done. }
    destruct (getitem_row_eq conns1 i idx row Hrow) as (vals & -> & Hvals).
    { unfold row. rewrite flip_sites_length. exact Hvalid. }
    cbn [mbind option_bind].
    set (mels1 := at_set mels i _).
    destruct (IH conns1 mels1 Hnodup) as
      (conns' & mels' & -> & Hlc & Hlm & Hout & Hin).
    { unfold mels1, at_set. rewrite length_insert. exact Hlen. }
    { intros i' Hi'. unfold conns1.
      rewrite list_lookup_alter_ne by (intros ->; done).
      apply Hrows. by right. }
    exists conns', mels'. split; [reflexivity|].
    split; [rewrite Hlc; apply length_alter|].
    split; [rewrite Hlm; apply length_insert|].
    split.
    + intros i' Hi'. apply not_elem_of_cons in Hi' as [Hne Hi'].
      destruct (Hout i' Hi') as [-> ->]. split.
      * apply list_lookup_alter_ne. done.
      * apply list_lookup_insert_ne. done.
    + intros i' Hi'. apply elem_of_cons in Hi' as [->|Hi']; [|by apply Hin].
      exists vals. destruct (Hout i Hi) as [-> ->].
      split; [exact Hrow|]. split; [exact Hvals|].
      apply list_lookup_insert_eq. exact Hilen.
Qed.

(** The connections and amplitudes of [Hadamard_multi], row by row. *)
Lemma get_conns_and_mels_Hadamard_multiple_rows (sigma : config)
    (idx : list nat) (ls : V * V) :
  Forall (λ q, q < length sigma) idx →
  ∃ conns mels,
    get_conns_and_mels_Hadamard_multiple sigma idx ls = Some (conns, mels)
    ∧ length conns = 2 ^ length idx
    ∧ length mels = 2 ^ length idx
    ∧ ∀ i, i < 2 ^ length idx →
        ∃ c vals,
          conns !! i = Some c
          ∧ length c = length sigma
          ∧ (∀ p, c !! p =
                    if decide (p ∈ combination idx i)
                    then flipped ls <$> sigma !! p else sigma !! p)
          ∧ Forall2 (λ q v, c !! q = Some v) idx vals
          ∧ mels !! i =
              Some (IZR (jnp_prod (sign ls <$> vals))
                    / sqrt (INR (2 ^ length idx)))%R.
Proof.
  intros Hvalid. unfold get_conns_and_mels_Hadamard_multiple.
  set (n := 2 ^ length idx).
  destruct (combination_loop_eq sigma idx ls Hvalid (seq 0 n)
              (tile sigma n) (zeros 0%R n)) as
    (conns & mels & Heq & Hlc & Hlm & _ & Hin).
  - apply NoDup_seq.
  - apply Forall_forall. intros i Hi. apply elem_of_seq in Hi.
    unfold zeros. rewrite length_replicate. lia.
  - intros i Hi. apply elem_of_seq in Hi.
    apply lookup_replicate_2. lia.
  - exists conns, mels. split; [exact Heq|].
    unfold tile in Hlc. unfold zeros in Hlm.
    rewrite length_replicate in Hlc. rewrite length_replicate in Hlm.
    do 2 (split; [done|]).
    intros i Hi. destruct (Hin i) as (vals & Hc & Hvals & Hm).
    { apply elem_of_seq. lia. }
    eexists _, vals. split; [exact Hc|].
    split; [apply flip_sites_length|].
    split; [intros p; apply flip_sites_lookup; reflexivity|].
    split; [exact Hvals|exact Hm].
Qed.
Lemma sign_decide (ls : V * V) (v : V) :
  sign ls v = if decide (v = fst ls) then 1%Z else (-1)%Z.
Proof.
  case_decide as Hv; [apply sign_state_0|apply sign_not_state_0]; exact Hv.
Qed.

Lemma INR_pow2 (k : nat) : INR (2 ^ k) = (2 ^ k)%R.
Proof. rewrite pow_INR. reflexivity. Qed.

(** C1.  With valid targets [idx] (k of them; distinct or not), the connect
    operation of Hadamard_multi returns 2^k connections and 2^k amplitudes.
    For every counter value i below 2^k, connection i is [sigma] with, at
    the site idx[j] of every set bit j of i, state_1 written where [sigma]
    holds state_0 and state_0 written where it holds anything else, and
    with every other site untouched; amplitude i is the product, over the
    targets q, of +1 when connection i holds state_0 at q and -1 otherwise,
    divided by sqrt(2^k). *)
Theorem Hadamard_multi_connect (sigma : config) (idx : list nat)
    (ls : V * V) :
  Forall (λ q, q < length sigma) idx →
  ∃ conns mels,
    get_conns_and_mels_Hadamard_multiple sigma idx ls = Some (conns, mels)
    ∧ length conns = 2 ^ length idx
    ∧ length mels = 2 ^ length idx
    ∧ ∀ i, i < 2 ^ length idx →
        ∃ c vals,
          conns !! i = Some c
          ∧ length c = length sigma
          ∧ (∀ j q v, idx !! j = Some q → Nat.testbit i j = true →
               sigma !! q = Some v →
               c !! q = Some (if decide (v = fst ls)
                              then snd ls else fst ls))
          ∧ (∀ p, (∀ j, idx !! j = Some p → Nat.testbit i j = false) →
               c !! p = sigma !! p)
          ∧ Forall2 (λ q v, c !! q = Some v) idx vals
          ∧ mels !! i =
              Some (IZR (foldr Z.mul 1%Z
                           ((λ v, if decide (v = fst ls)
                                  then 1 else -1)%Z <$> vals))
                    / sqrt (2 ^ length idx))%R.
Proof.
  intros Hvalid.
  destruct (get_conns_and_mels_Hadamard_multiple_rows sigma idx ls Hvalid)
    as (conns & mels & Heq & Hlc & Hlm & Hrows).
  exists conns, mels. do 3 (split; [done|]).
  intros i Hi.
  destruct (Hrows i Hi) as (c & vals & Hc & Hlen & Hsites & Hvals & Hm).
  exists c, vals. do 2 (split; [done|]).
  split; [|split; [|split; [exact Hvals|]]].
  - intros j q v Hj Hbit Hv.
    rewrite Hsites, decide_True, Hv by (apply elem_of_combination; eauto).
    simpl. f_equal.
    destruct (decide (v = fst ls)) as [Hs|Hs];
      [apply flipped_state_0|apply flipped_not_state_0]; exact Hs.
  - intros p Hp. rewrite Hsites, decide_False; [done|].
    intros (j & Hj & Hbit)%elem_of_combination.
    rewrite (Hp j Hj) in Hbit. discriminate.
  - rewrite Hm, INR_pow2. unfold jnp_prod. do 4 f_equal.
    apply list_fmap_ext. intros _ v _. apply sign_decide.
Qed.

(** *** Counts and norms *)

Lemma sum_R_const (f : R → R) (c : R) (l : list R) :
  (∀ i x, l !! i = Some x → f x = c) →
  sum_R (f <$> l) = (INR (length l) * c)%R.
Proof.
  induction l as [|x l IH]; intros Hc.
  - simpl. lra.
  - cbn [fmap list_fmap sum_R foldr length]. rewrite S_INR.
    fold (sum_R (f <$> l)). rewrite IH.
    + rewrite (Hc 0 x) by reflexivity. lra.
    + intros i y Hy. apply (Hc (S i) y). exact Hy.
Qed.

Lemma prod_signs (ls : V * V) (vals : list V) :
  jnp_prod (sign ls <$> vals) = 1%Z ∨ jnp_prod (sign ls <$> vals) = (-1)%Z.
Proof.
  induction vals as [|v vals IH]; [left; reflexivity|].
  cbn [fmap list_fmap jnp_prod foldr]. fold (jnp_prod (sign ls <$> vals)).
  destruct (sign_cases ls v) as [->| ->], IH as [->| ->]; auto.
Qed.

Lemma Rsqr_unit_over_sqrt (s : Z) (x : R) :
  s = 1%Z ∨ s = (-1)%Z → (0 < x)%R → Rsqr (IZR s / sqrt x) = (/ x)%R.
Proof.
  intros Hs Hx.
  rewrite Rsqr_div', Rsqr_sqrt by lra.
  assert (Hone : Rsqr (IZR s) = 1%R).
  { unfold Rsqr. destruct Hs as [-> | ->]; lra. }
  rewrite Hone. lra.
Qed.

Lemma Rx_norm (angle : R) :
  sum_R (Cnorm2 <$> [RtoC (cos (angle / 2)); (0, - sin (angle / 2))%R]) = 1%R.
Proof.
  unfold sum_R, Cnorm2, RtoC; simpl.
  pose proof (sin2_cos2 (angle / 2)) as Hsc. unfold Rsqr in Hsc. lra.
Qed.

Lemma Ry_norm (angle : R) (s : Z) :
  s = 1%Z ∨ s = (-1)%Z →
  sum_R (Cnorm2 <$> [RtoC (cos (angle / 2));
                     RtoC (IZR s * sin (angle / 2))]) = 1%R.
Proof.
  intros Hs. unfold sum_R, Cnorm2, RtoC; simpl.
  pose proof (sin2_cos2 (angle / 2)) as Hsc. unfold Rsqr in Hsc.
  destruct Hs as [-> | ->]; lra.
Qed.

Lemma Hadamard_norm (s : Z) :
  s = 1%Z ∨ s = (-1)%Z →
  sum_R (Rsqr <$> [IZR s / sqrt 2; 1 / sqrt 2]%R) = 1%R.
Proof.
  intros Hs. unfold sum_R; simpl.
  rewrite (Rsqr_unit_over_sqrt s 2 Hs) by lra.
  rewrite (Rsqr_unit_over_sqrt 1 2) by (auto; lra). lra.
Qed.

Lemma get_conns_and_mels_Hadamard_f64_eq (sigma : config) (idx : nat)
    (ls : V * V) (v : V) :
  sigma !! idx = Some v →
  get_conns_and_mels_Hadamard_f64 sigma idx ls =
    Some ([sigma; <[idx := flipped ls v]> sigma],
          [PrimFloat.div (float_of_Z (sign ls v))
             (PrimFloat.sqrt (float_of_Z 2));
           PrimFloat.div (float_of_Z 1) (PrimFloat.sqrt (float_of_Z 2))]).
Proof.
  intros Hv. unfold get_conns_and_mels_Hadamard_f64.
  rewrite (getitem_lookup _ _ _ Hv). simpl.
  unfold at2_get. simpl. rewrite (getitem_lookup _ _ _ Hv). reflexivity.
Qed.


(** The formulas of the amplitudes are normalised: with the cosine, the sine
    and the square root as exact real numbers the squared moduli add up
    to 1.  This is a fact about the formulas; the binary64 numbers that the
    code computes from them satisfy it only up to rounding, see
    [Hadamard_f64_norm]. *)
Lemma exact_formulas_normalised (hi : Hilbert) (sigma : config) (idx : nat)
    (idxs : list nat) (angle : R) :
  idx < length sigma →
  Forall (λ q, q < length sigma) idxs →
  (∃ conns mels,
     get_conns_and_mels_Rx sigma idx angle (local_states hi)
       = Some (conns, mels)
     ∧ sum_R (Cnorm2 <$> mels) = 1%R)
  ∧ (∃ conns mels,
       get_conns_and_mels_Ry sigma idx angle (local_states hi)
         = Some (conns, mels)
       ∧ sum_R (Cnorm2 <$> mels) = 1%R)
  ∧ (∃ conns mels,
       get_conns_and_mels_Hadamard sigma idx (local_states hi)
         = Some (conns, mels)
       ∧ sum_R (Rsqr <$> mels) = 1%R)
  ∧ (∃ conns mels,
       get_conns_and_mels_Hadamard_multiple sigma idxs (local_states hi)
         = Some (conns, mels)
       ∧ sum_R (Rsqr <$> mels) = 1%R).
Proof.
  intros Hidx Hidxs.
  destruct (lookup_lt_is_Some_2 sigma idx Hidx) as [v Hv].
  set (ls := local_states hi).
  split; [|split; [|split]].
  - eexists _, _. split; [apply get_conns_and_mels_Rx_eq, Hv|].
    apply Rx_norm.
  - eexists _, _. split; [apply get_conns_and_mels_Ry_eq, Hv|].
    apply Ry_norm, sign_cases.
  - eexists _, _. split; [apply get_conns_and_mels_Hadamard_eq, Hv|].
    apply Hadamard_norm, sign_cases.
  - destruct (get_conns_and_mels_Hadamard_multiple_rows sigma idxs ls Hidxs)
      as (conns & mels & Heq & Hlc & Hlm & Hrows).
    exists conns, mels. split; [done|].
    assert (Hpos : (0 < INR (2 ^ length idxs))%R).
    { rewrite INR_pow2. apply pow_lt. lra. }
    rewrite (sum_R_const Rsqr (/ INR (2 ^ length idxs))%R).
    + rewrite Hlm. field. lra.
    + intros i x Hx. apply lookup_lt_Some in Hx as Hi. rewrite Hlm in Hi.
      destruct (Hrows i Hi) as (c & vals & _ & _ & _ & _ & Hm).
      rewrite Hm in Hx. injection Hx as <-.
      apply Rsqr_unit_over_sqrt; [apply prod_signs|exact Hpos].
Qed.


(** *** Batches *)

Lemma vmap_Some {A B D : Type} (f : A → option (B * D)) (xs : list A) :
  Forall (λ x, is_Some (f x)) xs →
  ∃ bs ds,
    vmap f xs = Some (bs, ds)
    ∧ length bs = length xs
    ∧ length ds = length xs
    ∧ ∀ n x, xs !! n = Some x →
        ∃ b d, f x = Some (b, d) ∧ bs !! n = Some b ∧ ds !! n = Some d.
Proof.
  intros Hsome. unfold vmap.
  destruct (mapM_is_Some_2 f xs Hsome) as [rs Hrs]. rewrite Hrs. simpl.
  apply mapM_Some_1 in Hrs.
  eexists _, _. split; [reflexivity|].
  rewrite !length_fmap, (Forall2_length _ _ _ Hrs).
  do 2 (split; [reflexivity|]).
  intros n x Hx.
  destruct (Forall2_lookup_l _ _ _ _ _ Hrs Hx) as ([b d] & Hr & Hfx).
  exists b, d. rewrite !list_lookup_fmap, Hr. done.
Qed.

Lemma reshape_batch_Some {A : Type} (x : list (list A)) :
  Forall (λ row, 0 < length row) x → reshape_batch x = Some x.
Proof.
  intros Hrows. unfold reshape_batch. rewrite bool_decide_eq_true_2; done.
Qed.

Lemma reshape_batch_below {A : Type} (x : list (list A)) (i : nat) :
  Forall (λ row, i < length row) x → reshape_batch x = Some x.
Proof.
  intros Hrows. apply reshape_batch_Some.
  eapply Forall_impl; [exact Hrows|]. simpl. lia.
Qed.

Lemma vmap_None {A B D : Type} (f : A → option (B * D)) (xs : list A) :
  vmap f xs = None ↔ Exists (λ x, f x = None) xs.
Proof.
  unfold vmap. rewrite <- mapM_None.
  destruct (mapM f xs); simpl; split; done.
Qed.

(** C8.  On a batch whose rows all have valid targets, [get_conn_padded]
    returns one block of connections and one block of amplitudes per row,
    and block n is what the connect operation returns on row n alone. *)
Theorem batch_independence (hi : Hilbert) (idx : nat) (idxs : list nat)
    (angle : R) (x : list config) :
  Forall (λ sigma, idx < length sigma) x →
  Forall (λ sigma, Forall (λ q, q < length sigma) idxs) x →
  (∃ xp mels,
     Rx_get_conn_padded hi idx angle x = Some (xp, mels)
     ∧ length xp = length x ∧ length mels = length x
     ∧ ∀ n sigma, x !! n = Some sigma →
         ∃ c m, get_conns_and_mels_Rx sigma idx angle (local_states hi)
                  = Some (c, m)
                ∧ xp !! n = Some c ∧ mels !! n = Some m)
  ∧ (∃ xp mels,
       Ry_get_conn_padded hi idx angle x = Some (xp, mels)
       ∧ length xp = length x ∧ length mels = length x
       ∧ ∀ n sigma, x !! n = Some sigma →
           ∃ c m, get_conns_and_mels_Ry sigma idx angle (local_states hi)
                    = Some (c, m)
                  ∧ xp !! n = Some c ∧ mels !! n = Some m)
  ∧ (∃ xp mels,
       Hadamard_get_conn_padded hi idx x = Some (xp, mels)
       ∧ length xp = length x ∧ length mels = length x
       ∧ ∀ n sigma, x !! n = Some sigma →
           ∃ c m, get_conns_and_mels_Hadamard sigma idx (local_states hi)
                    = Some (c, m)
                  ∧ xp !! n = Some c ∧ mels !! n = Some m)
  ∧ (∃ xp mels,
       Hadamard_multi_get_conn_padded hi idxs x = Some (xp, mels)
       ∧ length xp = length x ∧ length mels = length x
       ∧ ∀ n sigma, x !! n = Some sigma →
           ∃ c m, get_conns_and_mels_Hadamard_multiple sigma idxs
                    (local_states hi) = Some (c, m)
                  ∧ xp !! n = Some c ∧ mels !! n = Some m).
Proof.
  intros Hidx Hidxs.
  unfold Rx_get_conn_padded, Ry_get_conn_padded, Hadamard_get_conn_padded,
    Hadamard_multi_get_conn_padded.
  rewrite (reshape_batch_below x idx Hidx). cbn [mbind option_bind].
  split; [|split; [|split]]; apply vmap_Some.
  - eapply Forall_impl; [exact Hidx|]. intros sigma Hlt; simpl.
    destruct (lookup_lt_is_Some_2 sigma idx Hlt) as [v Hv].
    rewrite (get_conns_and_mels_Rx_eq _ _ _ _ _ Hv). done.
  - eapply Forall_impl; [exact Hidx|]. intros sigma Hlt; simpl.
    destruct (lookup_lt_is_Some_2 sigma idx Hlt) as [v Hv].
    rewrite (get_conns_and_mels_Ry_eq _ _ _ _ _ Hv). done.
  - eapply Forall_impl; [exact Hidx|]. intros sigma Hlt; simpl.
    destruct (lookup_lt_is_Some_2 sigma idx Hlt) as [v Hv].
    rewrite (get_conns_and_mels_Hadamard_eq _ _ _ _ Hv). done.
  - eapply Forall_impl; [exact Hidxs|]. intros sigma Hvalid; simpl.
    destruct (get_conns_and_mels_Hadamard_multiple_rows sigma idxs
                (local_states hi) Hvalid) as (c & m & -> & _).
    done.
Qed.

(** *** The flip *)

Lemma flipped_decide (ls : V * V) (v : V) :
  flipped ls v = if decide (v = fst ls) then snd ls else fst ls.
Proof.
  case_decide as Hv; [apply flipped_state_0|apply flipped_not_state_0];
    exact Hv.
Qed.

Lemma flipped_involutive_iff (ls : V * V) (v : V) :
  flipped ls (flipped ls v) = v ↔ v = fst ls ∨ v = snd ls.
Proof.
  rewrite !flipped_decide.
  repeat case_decide; split; intros; destruct_or?; congruence || auto.
Qed.

(** C10.  In the flipped connection of every gate the target site holds
    state_1 when the input holds state_0 there, and state_0 for every other
    input value, inside or outside the two local states; flipping that
    value once more gives the input value back exactly when the input value
    is one of the two local states. *)
Theorem flip_is_state_0_test (sigma : config) (idx : nat) (v : V)
    (angle : R) (ls : V * V) (idxs : list nat) (i j : nat) :
  sigma !! idx = Some v →
  Forall (λ q, q < length sigma) idxs →
  idxs !! j = Some idx →
  i < 2 ^ length idxs →
  Nat.testbit i j = true →
  let w := if decide (v = fst ls) then snd ls else fst ls in
  (∃ conns mels c,
     get_conns_and_mels_Rx sigma idx angle ls = Some (conns, mels)
     ∧ conns !! 1 = Some c ∧ c !! idx = Some w)
  ∧ (∃ conns mels c,
       get_conns_and_mels_Ry sigma idx angle ls = Some (conns, mels)
       ∧ conns !! 1 = Some c ∧ c !! idx = Some w)
  ∧ (∃ conns mels c,
       get_conns_and_mels_Hadamard sigma idx ls = Some (conns, mels)
       ∧ conns !! 1 = Some c ∧ c !! idx = Some w)
  ∧ (∃ conns mels c,
       get_conns_and_mels_Hadamard_multiple sigma idxs ls
         = Some (conns, mels)
       ∧ conns !! i = Some c ∧ c !! idx = Some w)
  ∧ (flipped ls w = v ↔ v = fst ls ∨ v = snd ls).
Proof.
  intros Hv Hvalid Hj Hi Hbit w.
  assert (Hw : flipped ls v = w) by apply flipped_decide.
  apply lookup_lt_Some in Hv as Hlt.
  assert (Hset : <[idx := flipped ls v]> sigma !! idx = Some w).
  { rewrite list_lookup_insert_eq by exact Hlt. by rewrite Hw. }
  split; [|split; [|split; [|split]]].
  - eexists _, _, _. split; [apply get_conns_and_mels_Rx_eq, Hv|]. done.
  - eexists _, _, _. split; [apply get_conns_and_mels_Ry_eq, Hv|]. done.
  - eexists _, _, _. split; [apply get_conns_and_mels_Hadamard_eq, Hv|].
    done.
  - destruct (get_conns_and_mels_Hadamard_multiple_rows sigma idxs ls Hvalid)
      as (conns & mels & Heq & _ & _ & Hrows).
    destruct (Hrows i Hi) as (c & vals & Hc & _ & Hsites & _).
    exists conns, mels, c. do 2 (split; [done|]).
    rewrite Hsites, decide_True, Hv by (apply elem_of_combination; eauto).
    simpl. by rewrite Hw.
  - rewrite <- Hw. apply flipped_involutive_iff.
Qed.
(** *** Sections *)

Lemma length_np_arange_2 (m : nat) :
  length (np_arange 2 (Z.of_nat m + 2) 2) = (m + 1) `div` 2.
Proof.
  unfold np_arange. rewrite length_fmap, length_seq.
  replace (Z.of_nat m + 2 - 2 + 2 - 1)%Z with (Z.of_nat (m + 1)) by lia.
  rewrite <- (Nat2Z.id ((m + 1) `div` 2)). f_equal.
  rewrite Nat2Z.inj_div. reflexivity.
Qed.

Lemma np_arange_2_lookup (m n : nat) (s : Z) :
  np_arange 2 (Z.of_nat m + 2) 2 !! n = Some s →
  s = (2 * (Z.of_nat n + 1))%Z.
Proof.
  unfold np_arange. rewrite list_lookup_fmap.
  intros Hs. apply fmap_Some in Hs as (k & Hk & ->).
  apply lookup_seq in Hk as [-> _]. lia.
Qed.

Lemma array_size_rows {A : Type} (a : list (list A)) (c : nat) :
  Forall (λ row, length row = c) a → array_size a = length a * c.
Proof.
  unfold array_size. induction 1 as [|row a Hrow _ IH]; [done|].
  simpl. rewrite length_app, IH, Hrow. lia.
Qed.

Lemma setitem_all_same_length (sections values : list Z) :
  length values = length sections →
  setitem_all false sections values = Some values.
Proof.
  intros Hlen. unfold setitem_all. rewrite bool_decide_eq_true_2; done.
Qed.

Lemma setitem_all_mismatch (sections values : list Z) :
  length values ≠ length sections → length values ≠ 1 →
  setitem_all false sections values = None.
Proof.
  intros Hlen Hone. unfold setitem_all.
  rewrite bool_decide_eq_false_2 by done.
  destruct values as [|v [|v' values]]; done.
Qed.

(** The amplitudes of a batch, when those of every row satisfy [P]. *)
Lemma vmap_amplitudes {A B D : Type} (f : A → option (B * D))
    (P : D → Prop) (xs : list A) :
  Forall (λ x, ∃ b d, f x = Some (b, d) ∧ P d) xs →
  ∃ bs ds, vmap f xs = Some (bs, ds)
           ∧ length ds = length xs ∧ Forall P ds.
Proof.
  intros Hrows.
  destruct (vmap_Some f xs) as (bs & ds & Heq & _ & Hlen & Hblocks).
  { eapply Forall_impl; [exact Hrows|].
    intros x (b & d & -> & _). done. }
  exists bs, ds. do 2 (split; [done|]).
  apply Forall_lookup. intros n d Hd.
  assert (is_Some (xs !! n)) as [x Hx].
  { apply lookup_lt_is_Some. rewrite <- Hlen. eapply lookup_lt_Some, Hd. }
  destruct (Hblocks n x Hx) as (b & d' & Hfx & _ & Hd').
  rewrite Forall_forall in Hrows.
  destruct (Hrows x) as (b'' & d'' & Hfx' & HP).
  { eapply list_elem_of_lookup_2, Hx. }
  congruence.
Qed.

Lemma np_arange_offsets (n : nat) :
  np_arange 2 (Z.of_nat (n * 2) + 2) 2
  = (λ k, 2 * (Z.of_nat k + 1))%Z <$> seq 0 n.
Proof.
  assert (Hl : length (np_arange 2 (Z.of_nat (n * 2) + 2) 2) = n).
  { rewrite length_np_arange_2.
    replace (n * 2 + 1) with (1 + n * 2) by lia.
    rewrite Nat.div_add by lia. reflexivity. }
  apply list_eq. intros k.
  destruct (np_arange _ _ _ !! k) as [s|] eqn:Hs.
  - apply lookup_lt_Some in Hs as Hk. rewrite Hl in Hk.
    apply np_arange_2_lookup in Hs as ->.
    rewrite list_lookup_fmap, lookup_seq_lt by exact Hk. reflexivity.
  - apply lookup_ge_None in Hs. rewrite Hl in Hs. symmetry.
    apply lookup_ge_None. rewrite length_fmap, length_seq. exact Hs.
Qed.

(** What the shared body leaves in a numpy buffer [sections] of the length
    of the batch, when every row of the batch has two amplitudes. *)
Lemma get_conn_flattened_body_two {M : Type} (hi : Hilbert)
    (f : config → option (list config * list M)) (x : list config)
    (sections : list Z) :
  Forall (λ sigma, ∃ c m, f sigma = Some (c, m) ∧ length m = 2) x →
  length sections = length x →
  fst (get_conn_flattened_body false hi (vmap f x) sections)
  = (λ n, 2 * (Z.of_nat n + 1))%Z <$> seq 0 (length x).
Proof.
  intros Hrows Hlen.
  destruct (vmap_amplitudes f (λ m, length m = 2) x Hrows)
    as (xp & mels & -> & Hlm & Htwo).
  unfold get_conn_flattened_body.
  rewrite (array_size_rows _ _ Htwo), Hlm, np_arange_offsets.
  rewrite setitem_all_same_length; [reflexivity|].
  rewrite length_fmap, length_seq. done.
Qed.

(** For the plain methods of Rx and Ry the offsets are 2, 4, 6, ..., here
    for a buffer whose integer type holds them all;
    [get_conn_flattened_body_dtype] has the cast to a narrower type. *)
Lemma sections_Rx_Ry (hi : Hilbert) (idx : nat) (angle : R)
    (x : list config) (sections : list Z) :
  Forall (λ sigma, idx < length sigma) x →
  length sections = length x →
  let expected := (λ n, 2 * (Z.of_nat n + 1))%Z <$> seq 0 (length x) in
  fst (Rx_get_conn_flattened hi idx angle x sections) = expected
  ∧ fst (Ry_get_conn_flattened hi idx angle x sections) = expected.
Proof.
  intros Hidx Hlen expected.
  unfold Rx_get_conn_flattened, Rx_get_conn_padded,
    Ry_get_conn_flattened, Ry_get_conn_padded.
  rewrite (reshape_batch_below x idx Hidx). cbn [mbind option_bind].
  split; apply get_conn_flattened_body_two; try exact Hlen;
    (eapply Forall_impl; [exact Hidx|]); intros sigma Hlt; simpl;
    destruct (lookup_lt_is_Some_2 sigma idx Hlt) as [v Hv].
  - rewrite (get_conns_and_mels_Rx_eq _ _ _ _ _ Hv). eauto.
  - rewrite (get_conns_and_mels_Ry_eq _ _ _ _ _ Hv). eauto.
Qed.

(** Under [jax.jit] the assignment to [sections] is refused: the methods of
    Hadamard and Hadamard_multi raise and leave the buffer as it was. *)
Lemma sections_under_jit (hi : Hilbert) (idx : nat) (idxs : list nat)
    (x : list config) (sections : list Z) :
  Hadamard_get_conn_flattened hi idx x sections = (sections, None)
  ∧ Hadamard_multi_get_conn_flattened hi idxs x sections = (sections, None).
Proof.
  unfold Hadamard_get_conn_flattened, Hadamard_multi_get_conn_flattened,
    get_conn_flattened_body.
  split.
  - destruct (Hadamard_get_conn_padded hi idx x) as [[xp mels]|]; done.
  - destruct (Hadamard_multi_get_conn_padded hi idxs x) as [[xp mels]|];
      done.
Qed.

(** Without [jax.jit], the body of the method of Hadamard_multi on two or
    more targets computes twice too many offsets (or more) for a non-empty
    batch: the assignment fails and nothing is written. *)
Lemma sections_Hadamard_multi_body (hi : Hilbert) (idxs : list nat)
    (x : list config) (sections : list Z) :
  Forall (λ sigma, Forall (λ q, q < length sigma) idxs) x →
  length sections = length x →
  2 ≤ length idxs →
  x ≠ [] →
  get_conn_flattened_body false hi
    (Hadamard_multi_get_conn_padded hi idxs x) sections = (sections, None).
Proof.
  intros Hvalid Hlen Hk Hx. unfold Hadamard_multi_get_conn_padded.
  rewrite reshape_batch_Some; cbn [mbind option_bind].
  2:{ eapply Forall_impl; [exact Hvalid|]. intros sigma Hs; simpl in *.
      destruct idxs as [|q idxs]; [simpl in Hk; lia|].
      apply Forall_cons in Hs as [Hq _]. lia. }
  destruct (vmap_amplitudes
              (λ sigma, get_conns_and_mels_Hadamard_multiple sigma idxs
                          (local_states hi))
              (λ m, length m = 2 ^ length idxs) x)
    as (xp & mels & -> & Hlm & Hrows).
  { eapply Forall_impl; [exact Hvalid|]. intros sigma Hs; simpl.
    destruct (get_conns_and_mels_Hadamard_multiple_rows sigma idxs
                (local_states hi) Hs) as (c & m & -> & _ & Hm & _).
    eauto. }
  unfold get_conn_flattened_body.
  rewrite (array_size_rows _ _ Hrows), Hlm.
  assert (Hpow : 4 ≤ 2 ^ length idxs).
  { change 4 with (2 ^ 2). apply Nat.pow_le_mono_r; lia. }
  assert (Hn : 0 < length x) by (destruct x; simpl; [done|lia]).
  assert (Hmany :
    2 * length x ≤ (length x * 2 ^ length idxs + 1) `div` 2).
  { apply Nat.div_le_lower_bound; nia. }
  rewrite setitem_all_mismatch; [reflexivity| |];
    rewrite length_np_arange_2; lia.
Qed.

(** *** Further properties of the operator classes *)

(** X1.  Unflattening what [tree_flatten] returns rebuilds the gate, for
    each of the four classes.  [tree_unflatten] of Rx and of Ry succeeds
    exactly when it is given one child, and then returns the gate with the
    Hilbert space and target of [aux_data] and that child as its angle; the
    Hadamard classes rebuild the gate from [aux_data] whatever the
    children. *)
Theorem tree_unflatten_flatten (hi : Hilbert) (q : nat) (qs : list nat)
    (theta : R) (children : list R) :
  Rx_tree_unflatten (snd (Rx_tree_flatten hi q theta))
    (fst (Rx_tree_flatten hi q theta)) = Some (Rx hi q theta)
  ∧ Ry_tree_unflatten (snd (Ry_tree_flatten hi q theta))
      (fst (Ry_tree_flatten hi q theta)) = Some (Ry hi q theta)
  ∧ Hadamard_tree_unflatten (snd (Hadamard_tree_flatten hi q))
      (fst (Hadamard_tree_flatten hi q)) = Some (Hadamard hi q)
  ∧ Hadamard_multi_tree_unflatten (snd (Hadamard_multi_tree_flatten hi qs))
      (fst (Hadamard_multi_tree_flatten hi qs)) = Some (Hadamard_multi hi qs)
  ∧ (Rx_tree_unflatten (hi, q) children
       = match children with
         | [a] => Some (Rx hi q a)
         | _ => None
         end)
  ∧ (is_Some (Rx_tree_unflatten (hi, q) children) ↔ length children = 1)
  ∧ (is_Some (Ry_tree_unflatten (hi, q) children) ↔ length children = 1)
  ∧ Hadamard_tree_unflatten (hi, q) children = Some (Hadamard hi q)
  ∧ Hadamard_multi_tree_unflatten (hi, qs) children
      = Some (Hadamard_multi hi qs).
Proof.
  do 4 (split; [reflexivity|]).
  split; [reflexivity|].
  split; [|split; [|split; reflexivity]].
  - destruct children as [|a [|b children]]; simpl;
      split; intros Hc; try done; by destruct Hc.
  - destruct children as [|a [|b children]]; simpl;
      split; intros Hc; try done; by destruct Hc.
Qed.

(** X2.  The adjoint keeps the class, the Hilbert space, the target(s) and
    [max_conn_size] of the gate.  Taking it twice gives the gate back for
    Rx, Hadamard and Hadamard_multi; for Ry it multiplies the angle by 4,
    so it gives the gate back only at angle 0. *)
Theorem adjoint_twice (g : gate) :
  class_of (H g) = class_of g
  ∧ hilbert (H g) = hilbert g
  ∧ idx (H g) = idx g
  ∧ max_conn_size (H g) = max_conn_size g
  ∧ (class_of g ≠ Ry_class → H (H g) = g)
  ∧ (∀ hi q theta, g = Ry hi q theta →
       H (H g) = Ry hi q (4 * theta)
       ∧ (H (H g) = g ↔ theta = 0%R)).
Proof.
  do 4 (split; [destruct g; reflexivity|]).
  split.
  - destruct g as [hi q a|hi q a|hi q|hi qs]; simpl; intros Hc; try done.
    f_equal. lra.
  - intros hi q theta ->. simpl.
    assert (Hfour : (- (- theta * 2) * 2 = 4 * theta)%R) by lra.
    rewrite Hfour. split; [reflexivity|].
    split.
    + intros Heq. injection Heq as Heq. lra.
    + intros ->. f_equal. lra.
Qed.

Lemma idx_eq_true (a b : idx_value) : idx_eq a b = true ↔ a = b.
Proof.
  destruct a as [m|l], b as [n|k]; simpl;
    rewrite ?bool_decide_eq_true; split; congruence.
Qed.

Lemma eq_true_iff (g g' : gate) :
  eq_ g (Obj g') = true
  ↔ class_of g = class_of g'
    ∧ class_of g ≠ Hadamard_multi_class
    ∧ idx g = idx g'
    ∧ angle g = angle g'.
Proof.
  destruct g as [hi q a|hi q a|hi q|hi qs],
    g' as [hi' q' a'|hi' q' a'|hi' q' |hi' qs']; simpl;
    rewrite ?andb_true_iff, ?bool_decide_eq_true, ?angle_eq_true;
    split; try (intros (? & ? & ? & ?)); try intros [? ?]; try intros ?;
    try done; repeat split; try congruence.
Qed.

(** X3.  Among gates of the classes Rx, Ry and Hadamard, with their integer
    targets, two gates compare equal exactly when they are of the same
    class and their targets and angles are equal; the Hilbert space is not
    looked at.  So [==] is symmetric and transitive on these gates, and two
    of them on different Hilbert spaces can compare equal. *)
Theorem eq_characterisation (g g' g'' : gate) (hi hi' : Hilbert) (q : nat)
    (theta : R) :
  class_of g ≠ Hadamard_multi_class →
  class_of g' ≠ Hadamard_multi_class →
  class_of g'' ≠ Hadamard_multi_class →
  (eq_ g (Obj g') = true
   ↔ class_of g = class_of g' ∧ idx g = idx g' ∧ angle g = angle g')
  ∧ eq_ g (Obj g') = eq_ g' (Obj g)
  ∧ (eq_ g (Obj g') = true → eq_ g' (Obj g'') = true →
     eq_ g (Obj g'') = true)
  ∧ eq_ (Rx hi q theta) (Obj (Rx hi' q theta)) = true
  ∧ eq_ (Ry hi q theta) (Obj (Ry hi' q theta)) = true
  ∧ eq_ (Hadamard hi q) (Obj (Hadamard hi' q)) = true.
Proof.
  intros Hg Hg' Hg''.
  split.
  { rewrite eq_true_iff. split.
    - intros (Hc & _ & Hi & Ha). done.
    - intros (Hc & Hi & Ha). done. }
  split.
  { apply eq_true_iff_eq. rewrite !eq_true_iff.
    split; intros (Hc & Hm & Hi & Ha); repeat split; congruence. }
  split.
  { rewrite !eq_true_iff.
    intros (Hc & Hm & Hi & Ha) (Hc' & Hm' & Hi' & Ha').
    repeat split; congruence. }
  split; [|split]; apply eq_true_iff; repeat split; done.
Qed.

(** *** Two gates in a row *)

Lemma insert_flipped_twice (sigma : config) (q : nat) (ls : V * V) (v : V) :
  sigma !! q = Some v →
  v = fst ls ∨ v = snd ls →
  <[q := flipped ls (flipped ls v)]> (<[q := flipped ls v]> sigma) = sigma.
Proof.
  intros Hv Hbasis. rewrite list_insert_insert_eq.
  apply list_insert_id. rewrite Hv. f_equal. symmetry.
  apply flipped_involutive_iff, Hbasis.
Qed.

Lemma lookup_flipped (sigma : config) (q : nat) (w v : V) :
  sigma !! q = Some v → <[q := w]> sigma !! q = Some w.
Proof.
  intros Hv. apply list_lookup_insert_eq. eapply lookup_lt_Some, Hv.
Qed.

(** X8.  Hadamard twice, on the binary64 amplitudes of the code, from a
    basis configuration with two different local states: the amplitudes of
    the two ways to the flipped configuration cancel exactly, and those of
    the two ways back to [sigma] add up to 0.9999999999999998 (written
    0x1.ffffffffffffep-1 below), the largest binary64 number below 1. *)
Theorem Hadamard_twice (sigma : config) (q : nat) (ls : V * V) (v : V) :
  sigma !! q = Some v →
  v = fst ls ∨ v = snd ls →
  fst ls ≠ snd ls →
  ∃ c1 m0 m1 m10 m11,
    get_conns_and_mels_Hadamard_f64 sigma q ls
    = Some ([sigma; c1], [m0; m1])
    ∧ get_conns_and_mels_Hadamard_f64 c1 q ls
      = Some ([c1; sigma], [m10; m11])
    ∧ (m0 * m1 + m1 * m10)%float = 0%float
    ∧ (m0 * m0 + m1 * m11)%float = 0x1.ffffffffffffep-1%float.
Proof.
  intros Hv Hbasis Hne.
  eexists _, _, _, _, _.
  split; [apply get_conns_and_mels_Hadamard_f64_eq, Hv|].
  split.
  { rewrite (get_conns_and_mels_Hadamard_f64_eq _ _ _ _
               (lookup_flipped _ _ _ _ Hv)).
    rewrite (insert_flipped_twice _ _ _ _ Hv Hbasis). reflexivity. }
  rewrite (sign_flipped _ _ Hne).
  destruct (sign_cases ls v) as [-> | ->]; split; vm_compute; reflexivity.
Qed.

Lemma getitem_row_single {A : Type} (conns : list (list A)) (i q : nat)
    (c : list A) (w : A) :
  conns !! i = Some c → c !! q = Some w →
  getitem_row conns i [q] = Some [w].
Proof.
  intros Hc Hw. unfold getitem_row.
  rewrite (getitem_lookup _ _ _ Hc). cbn [mbind option_bind mapM].
  rewrite (getitem_lookup _ _ _ Hw). reflexivity.
Qed.

Lemma get_conns_and_mels_Hadamard_multiple_single (sigma : config) (q : nat)
    (ls : V * V) (v : V) :
  sigma !! q = Some v →
  get_conns_and_mels_Hadamard_multiple sigma [q] ls
  = Some ([sigma; <[q := flipped ls v]> sigma],
          [IZR (sign ls v) / sqrt 2;
           IZR (sign ls (flipped ls v)) / sqrt 2]%R).
Proof.
  intros Hv. unfold get_conns_and_mels_Hadamard_multiple.
  change (2 ^ length [q]) with 2.
  unfold tile, zeros. cbn [replicate seq combination_loop].
  change (combination [q] 0) with (@nil nat).
  change (combination [q] 1) with [q].
  cbn [flip_loop mbind option_bind].
  rewrite (getitem_lookup _ _ _ Hv). cbn [mbind option_bind].
  rewrite (getitem_row_single [sigma; sigma] 0 q sigma v eq_refl Hv).
  cbn [mbind option_bind].
  rewrite (getitem_row_single
             (at2_set [sigma; sigma] 1 q (flipped ls v)) 1 q
             (<[q := flipped ls v]> sigma) (flipped ls v) eq_refl
             (lookup_flipped _ _ _ _ Hv)).
  cbn [mbind option_bind].
  change (2 ^ length [q]) with 2.
  assert (Htwo : INR 2 = 2%R) by (simpl; lra). rewrite Htwo.
  unfold jnp_prod. cbn [fmap list_fmap foldr]. rewrite !Z.mul_1_r.
  reflexivity.
Qed.

(** X9.  Hadamard_multi on a single target is not Hadamard.  Both return
    [sigma] and the flipped configuration, with the same first amplitude;
    the second amplitude of Hadamard is always 1/sqrt(2), that of
    Hadamard_multi carries the sign read on the flipped configuration, so
    with two different local states the two gates differ exactly on the
    configurations that hold state_0 at the target.  Through Hadamard_multi
    twice from a basis configuration the amplitudes of the two ways back to
    [sigma] cancel, where those of Hadamard sum to 1. *)
Theorem Hadamard_multi_single_target (sigma : config) (q : nat) (ls : V * V)
    (v : V) :
  sigma !! q = Some v →
  v = fst ls ∨ v = snd ls →
  fst ls ≠ snd ls →
  ∃ c1 m0 m1 n1 n10 n11,
    get_conns_and_mels_Hadamard sigma q ls = Some ([sigma; c1], [m0; m1])
    ∧ get_conns_and_mels_Hadamard_multiple sigma [q] ls
      = Some ([sigma; c1], [m0; n1])
    ∧ get_conns_and_mels_Hadamard_multiple c1 [q] ls
      = Some ([c1; sigma], [n10; n11])
    ∧ m1 = (1 / sqrt 2)%R
    ∧ (v = fst ls → n1 = (- (1 / sqrt 2))%R)
    ∧ (v ≠ fst ls → n1 = (1 / sqrt 2)%R)
    ∧ (m0 * m0 + n1 * n11 = 0)%R
    ∧ (m0 * n1 + n1 * n10 = 0)%R.
Proof.
  intros Hv Hbasis Hne.
  eexists _, _, _, _, _, _.
  split; [apply get_conns_and_mels_Hadamard_eq, Hv|].
  split; [apply get_conns_and_mels_Hadamard_multiple_single, Hv|].
  split.
  { rewrite (get_conns_and_mels_Hadamard_multiple_single _ _ _ _
               (lookup_flipped _ _ _ _ Hv)).
    rewrite (insert_flipped_twice _ _ _ _ Hv Hbasis). reflexivity. }
  split; [reflexivity|].
  assert (Hback : flipped ls (flipped ls v) = v).
  { apply flipped_involutive_iff, Hbasis. }
  rewrite Hback, (sign_flipped _ _ Hne), opp_IZR.
  split; [intros Hs; rewrite (sign_state_0 _ _ Hs); lra|].
  split; [intros Hs; rewrite (sign_not_state_0 _ _ Hs); lra|].
  unfold Rdiv. set (r := (/ sqrt 2)%R).
  destruct (sign_cases ls v) as [-> | ->]; split; lra.
Qed.

(** *** The connections as a set *)

Lemma flipped_ne (ls : V * V) (v : V) :
  fst ls ≠ snd ls → flipped ls v ≠ v.
Proof.
  intros Hne. rewrite flipped_decide. case_decide; congruence.
Qed.

Lemma flipped_local_state (ls : V * V) (v : V) :
  flipped ls v = fst ls ∨ flipped ls v = snd ls.
Proof. rewrite flipped_decide. case_decide; auto. Qed.

Lemma testbit_above (i k m : nat) :
  i < 2 ^ k → k ≤ m → Nat.testbit i m = false.
Proof.
  intros Hi Hm. apply Nat.testbit_false.
  rewrite Nat.div_small; [reflexivity|].
  eapply Nat.lt_le_trans; [exact Hi|].
  apply Nat.pow_le_mono_r; lia.
Qed.

(** With distinct targets, the row of counter [i] tells bit [m] of [i] at
    target [idx[m]]. *)
Lemma combination_bit (idx : list nat) (i m p : nat) :
  NoDup idx → idx !! m = Some p →
  p ∈ combination idx i ↔ Nat.testbit i m = true.
Proof.
  intros Hnodup Hm. rewrite elem_of_combination. split.
  - intros (m' & Hm' & Hbit).
    by rewrite (NoDup_lookup _ _ _ _ Hnodup Hm Hm').
  - intros Hbit. eauto.
Qed.

(** X10.  With distinct valid targets and two different local states, the
    2^k connections of Hadamard_multi are pairwise different
    configurations. *)
Theorem Hadamard_multi_conns_distinct (sigma : config) (qs : list nat)
    (ls : V * V) :
  Forall (λ q, q < length sigma) qs →
  NoDup qs →
  fst ls ≠ snd ls →
  ∃ conns mels,
    get_conns_and_mels_Hadamard_multiple sigma qs ls = Some (conns, mels)
    ∧ length conns = 2 ^ length qs
    ∧ NoDup conns.
Proof.
  intros Hvalid Hnodup Hne.
  destruct (get_conns_and_mels_Hadamard_multiple_rows sigma qs ls Hvalid)
    as (conns & mels & Heq & Hlc & _ & Hrows).
  exists conns, mels. do 2 (split; [done|]).
  apply NoDup_alt. intros i j c Hi Hj.
  apply lookup_lt_Some in Hi as Hilt. apply lookup_lt_Some in Hj as Hjlt.
  rewrite Hlc in Hilt, Hjlt.
  destruct (Hrows i Hilt) as (ci & _ & Hci & _ & Hsi & _).
  destruct (Hrows j Hjlt) as (cj & _ & Hcj & _ & Hsj & _).
  assert (ci = c) as -> by congruence.
  assert (cj = c) as -> by congruence.
  apply Nat.bits_inj. intros m.
  destruct (decide (m < length qs)) as [Hm|Hm].
  - destruct (lookup_lt_is_Some_2 qs m Hm) as [p Hp].
    rewrite Forall_forall in Hvalid.
    destruct (lookup_lt_is_Some_2 sigma p) as [v Hv].
    { apply Hvalid. eapply list_elem_of_lookup_2, Hp. }
    pose proof (Hsi p) as Hpi. pose proof (Hsj p) as Hpj.
    rewrite Hv in Hpi, Hpj. simpl in Hpi, Hpj.
    pose proof (combination_bit qs i m p Hnodup Hp) as Hbi.
    pose proof (combination_bit qs j m p Hnodup Hp) as Hbj.
    pose proof (flipped_ne ls v Hne) as Hflip.
    destruct (Nat.testbit i m) eqn:Ei, (Nat.testbit j m) eqn:Ej;
      try reflexivity; exfalso.
    + rewrite decide_True in Hpi by (apply Hbi; reflexivity).
      rewrite decide_False in Hpj by (rewrite Hbj; discriminate).
      congruence.
    + rewrite decide_False in Hpi by (rewrite Hbi; discriminate).
      rewrite decide_True in Hpj by (apply Hbj; reflexivity).
      congruence.
  - rewrite (testbit_above i (length qs) m), (testbit_above j (length qs) m)
      by lia.
    reflexivity.
Qed.

Lemma row_keeps_basis (sigma c : config) (ls : V * V) (comb : list nat) :
  (∀ p, c !! p = if decide (p ∈ comb)
                 then flipped ls <$> sigma !! p else sigma !! p) →
  Forall (λ w, w = fst ls ∨ w = snd ls) sigma →
  Forall (λ w, w = fst ls ∨ w = snd ls) c.
Proof.
  intros Hsites Hbasis. apply Forall_lookup. intros p w Hw.
  rewrite Hsites in Hw. case_decide.
  - apply fmap_Some in Hw as (v & _ & ->). apply flipped_local_state.
  - exact (Forall_lookup_1 _ _ _ _ Hbasis Hw).
Qed.

Lemma insert_keeps_basis (sigma : config) (ls : V * V) (q : nat) (v : V) :
  Forall (λ w, w = fst ls ∨ w = snd ls) sigma →
  Forall (λ w, w = fst ls ∨ w = snd ls) (<[q := flipped ls v]> sigma).
Proof.
  intros Hbasis. destruct (decide (q < length sigma)) as [Hq|Hq].
  - apply Forall_insert; [exact Hbasis|apply flipped_local_state].
  - rewrite list_insert_ge by lia. exact Hbasis.
Qed.

(** X11.  Every connection returned by a gate has the length of [sigma],
    agrees with [sigma] outside the target(s), and is a basis configuration
    (only local states) when [sigma] is one. *)
Theorem connections_well_formed (sigma : config) (q : nat) (qs : list nat)
    (theta : R) (ls : V * V) :
  q < length sigma →
  Forall (λ p, p < length sigma) qs →
  let well_formed (targets : list nat) (c : config) :=
    length c = length sigma
    ∧ (∀ p, p ∉ targets → c !! p = sigma !! p)
    ∧ (Forall (λ w, w = fst ls ∨ w = snd ls) sigma →
       Forall (λ w, w = fst ls ∨ w = snd ls) c) in
  (∃ conns mels,
     get_conns_and_mels_Rx sigma q theta ls = Some (conns, mels)
     ∧ Forall (well_formed [q]) conns)
  ∧ (∃ conns mels,
       get_conns_and_mels_Ry sigma q theta ls = Some (conns, mels)
       ∧ Forall (well_formed [q]) conns)
  ∧ (∃ conns mels,
       get_conns_and_mels_Hadamard sigma q ls = Some (conns, mels)
       ∧ Forall (well_formed [q]) conns)
  ∧ (∃ conns mels,
       get_conns_and_mels_Hadamard_multiple sigma qs ls = Some (conns, mels)
       ∧ Forall (well_formed qs) conns).
Proof.
  intros Hq Hqs well_formed.
  destruct (lookup_lt_is_Some_2 sigma q Hq) as [v Hv].
  assert (Hsingle :
    Forall (well_formed [q]) [sigma; <[q := flipped ls v]> sigma]).
  { repeat constructor; try done.
    - apply length_insert.
    - intros p Hp. apply list_lookup_insert_ne.
      intros ->. apply Hp. left.
    - apply insert_keeps_basis. }
  split; [|split; [|split]].
  - eexists _, _. split; [apply get_conns_and_mels_Rx_eq, Hv|exact Hsingle].
  - eexists _, _. split; [apply get_conns_and_mels_Ry_eq, Hv|exact Hsingle].
  - eexists _, _.
    split; [apply get_conns_and_mels_Hadamard_eq, Hv|exact Hsingle].
  - destruct (get_conns_and_mels_Hadamard_multiple_rows sigma qs ls Hqs)
      as (conns & mels & Heq & Hlc & _ & Hrows).
    exists conns, mels. split; [exact Heq|].
    apply Forall_lookup. intros i c Hc.
    apply lookup_lt_Some in Hc as Hi. rewrite Hlc in Hi.
    destruct (Hrows i Hi) as (c' & _ & Hc' & Hlen & Hsites & _).
    assert (c' = c) as -> by congruence.
    split; [exact Hlen|]. split.
    + intros p Hp. rewrite Hsites, decide_False; [done|].
      intros (m & Hm & _)%elem_of_combination.
      apply Hp. eapply list_elem_of_lookup_2, Hm.
    + apply (row_keeps_basis sigma c ls _ Hsites).
Qed.

(** *** The flattened output *)

Lemma take_drop_concat {A : Type} (rows : list (list A)) (w n : nat)
    (r : list A) :
  Forall (λ row, length row = w) rows →
  rows !! n = Some r →
  take w (drop (n * w) (concat rows)) = r.
Proof.
  intros Hrows. revert n.
  induction Hrows as [|row rows Hrow _ IH]; intros n Hn; [done|].
  destruct n as [|n]; simpl in *.
  - injection Hn as ->. by apply take_app_length'.
  - rewrite drop_app_add' by done. by apply IH.
Qed.

Lemma reshape_rows_concat {A : Type} (rows : list (list A)) (w : nat) :
  0 < w →
  Forall (λ row, length row = w) rows →
  reshape_rows (concat rows) w = Some rows.
Proof.
  intros Hw Hrows. unfold reshape_rows.
  rewrite bool_decide_eq_false_2 by lia.
  fold (array_size rows). rewrite (array_size_rows _ _ Hrows).
  rewrite Nat.Div0.mod_mul, bool_decide_eq_true_2 by done.
  rewrite Nat.div_mul by lia. f_equal.
  apply list_eq. intros n. rewrite list_lookup_fmap.
  destruct (rows !! n) as [r|] eqn:Hr.
  - rewrite lookup_seq_lt by (eapply lookup_lt_Some, Hr). simpl.
    f_equal. by eapply take_drop_concat.
  - rewrite lookup_seq_ge by (by apply lookup_ge_None). reflexivity.
Qed.

Lemma length_concat_rows {A : Type} (rows : list (list A)) (w : nat) :
  Forall (λ row, length row = w) rows →
  length (concat rows) = length rows * w.
Proof. apply array_size_rows. Qed.

(** The blocks of a batch for a gate with [k] connections per row. *)
Lemma vmap_blocks {M : Type}
    (f : config → option (list config * list M)) (x : list config)
    (k w : nat) :
  Forall (λ sigma, ∃ c m, f sigma = Some (c, m)
                          ∧ length c = k ∧ length m = k
                          ∧ Forall (λ row, length row = w) c) x →
  ∃ xp mels,
    vmap f x = Some (xp, mels)
    ∧ length xp = length x ∧ length mels = length x
    ∧ Forall (λ c, length c = k) xp
    ∧ Forall (λ m, length m = k) mels
    ∧ Forall (λ row, length row = w) (concat xp).
Proof.
  intros Hrows.
  destruct (vmap_Some f x) as (xp & mels & Heq & Hlx & Hlm & Hblocks).
  { eapply Forall_impl; [exact Hrows|].
    intros sigma (c & m & -> & _). done. }
  exists xp, mels. do 3 (split; [done|]).
  assert (Hblock : ∀ n, n < length x →
            ∃ c m, xp !! n = Some c ∧ mels !! n = Some m
                   ∧ length c = k ∧ length m = k
                   ∧ Forall (λ row, length row = w) c).
  { intros n Hn. destruct (lookup_lt_is_Some_2 x n Hn) as [sigma Hs].
    destruct (Hblocks n sigma Hs) as (c & m & Hf & Hc & Hm).
    rewrite Forall_forall in Hrows.
    destruct (Hrows sigma) as (c' & m' & Hf' & Hlc & Hlm' & Hw).
    { eapply list_elem_of_lookup_2, Hs. }
    assert (c' = c ∧ m' = m) as [-> ->] by (split; congruence).
    eauto 10. }
  split; [|split].
  - apply Forall_lookup. intros n c Hc.
    destruct (Hblock n) as (c' & _ & Hc' & _ & Hl & _).
    { rewrite <- Hlx. eapply lookup_lt_Some, Hc. }
    congruence.
  - apply Forall_lookup. intros n m Hm.
    destruct (Hblock n) as (_ & m' & _ & Hm' & _ & Hl & _).
    { rewrite <- Hlm. eapply lookup_lt_Some, Hm. }
    congruence.
  - apply Forall_concat, Forall_lookup. intros n c Hc.
    destruct (Hblock n) as (c' & _ & Hc' & _ & _ & _ & Hw).
    { rewrite <- Hlx. eapply lookup_lt_Some, Hc. }
    congruence.
Qed.

Lemma cast_int_id (dt : int_dtype) (z : Z) :
  (0 ≤ z ≤ dtype_max dt)%Z → cast_int dt z = z.
Proof.
  intros Hz. unfold cast_int, dtype_max in *.
  destruct dt; cbv [dtype_bits dtype_signed] in *; cbv zeta;
    repeat match goal with
           | H : context [(2 ^ ?n)%Z] |- _ =>
               let v := eval vm_compute in (2 ^ n)%Z in
               change (2 ^ n)%Z with v in H
           | |- context [(2 ^ ?n)%Z] =>
               let v := eval vm_compute in (2 ^ n)%Z in
               change (2 ^ n)%Z with v
           | H : context [(?a - 1)%Z] |- _ =>
               progress (let v := eval vm_compute in (a - 1)%Z in
                         change (a - 1)%Z with v in H)
           end;
    repeat match goal with
           | |- context [(?a / 2)%Z] =>
               let v := eval vm_compute in (a / 2)%Z in
               change (a / 2)%Z with v
           end;
    rewrite Z.mod_small; lia.
Qed.

Lemma cast_int_offsets (dt : int_dtype) (n : nat) :
  (2 * Z.of_nat n ≤ dtype_max dt)%Z →
  cast_int dt <$> ((λ k, 2 * (Z.of_nat k + 1))%Z <$> seq 0 n)
  = (λ k, 2 * (Z.of_nat k + 1))%Z <$> seq 0 n.
Proof.
  intros Hn. rewrite <- list_fmap_compose.
  apply list_fmap_ext. intros i k Hk. simpl.
  apply lookup_seq in Hk as [-> Hi]. apply cast_int_id. lia.
Qed.

(** An int8 buffer and a batch of 64 rows: the last offset, 128, is stored
    as -128. *)
Lemma cast_int_int8_wraps :
  last (cast_int int8 <$> ((λ k, 2 * (Z.of_nat k + 1))%Z <$> seq 0 64))
  = Some (-128)%Z.
Proof. vm_compute. reflexivity. Qed.

(** The plain [get_conn_flattened] of a gate with two connections per row,
    on a numpy buffer of type [dt] and of the length of the batch. *)
Lemma get_conn_flattened_body_dtype_ok {M : Type} (dt : int_dtype)
    (hi : Hilbert) (f : config → option (list config * list M))
    (x : list config) (sections : list Z) :
  0 < size hi →
  Forall (λ sigma, ∃ c m, f sigma = Some (c, m)
                          ∧ length c = 2 ∧ length m = 2
                          ∧ Forall (λ row, length row = size hi) c) x →
  length sections = length x →
  ∃ xp mels,
    vmap f x = Some (xp, mels)
    ∧ get_conn_flattened_body_dtype dt false hi (vmap f x) sections
      = (cast_int dt
           <$> ((λ n, 2 * (Z.of_nat n + 1))%Z <$> seq 0 (length x)),
         Some (concat xp, concat mels))
    ∧ length (concat xp) = length x * 2
    ∧ length (concat mels) = length x * 2
    ∧ (∀ n c, xp !! n = Some c → take 2 (drop (n * 2) (concat xp)) = c)
    ∧ (∀ n m, mels !! n = Some m → take 2 (drop (n * 2) (concat mels)) = m).
Proof.
  intros Hsize Hrows Hlen.
  destruct (vmap_blocks f x 2 (size hi) Hrows)
    as (xp & mels & Heq & Hlx & Hlm & Hxp & Hmels & Hwidth).
  exists xp, mels. split; [exact Heq|].
  rewrite Heq. unfold get_conn_flattened_body_dtype.
  rewrite (array_size_rows _ _ Hmels), Hlm, np_arange_offsets.
  rewrite setitem_all_same_length
    by (rewrite !length_fmap, length_seq; done).
  rewrite (reshape_rows_concat _ _ Hsize Hwidth). cbn [mbind option_bind].
  split; [reflexivity|].
  rewrite (length_concat_rows _ _ Hxp), (length_concat_rows _ _ Hmels).
  rewrite Hlx, Hlm. do 2 (split; [reflexivity|]).
  split; intros n r Hr; by eapply take_drop_concat.
Qed.

Lemma Rx_block (sigma : config) (q : nat) (theta : R) (ls : V * V)
    (w : nat) :
  q < w → length sigma = w →
  ∃ c m, get_conns_and_mels_Rx sigma q theta ls = Some (c, m)
         ∧ length c = 2 ∧ length m = 2
         ∧ Forall (λ row, length row = w) c.
Proof.
  intros Hq Hlen.
  destruct (lookup_lt_is_Some_2 sigma q) as [v Hv]; [lia|].
  rewrite (get_conns_and_mels_Rx_eq _ _ _ _ _ Hv).
  eexists _, _. split; [reflexivity|]. do 2 (split; [reflexivity|]).
  repeat constructor; [exact Hlen|]. rewrite length_insert. exact Hlen.
Qed.

Lemma Ry_block (sigma : config) (q : nat) (theta : R) (ls : V * V)
    (w : nat) :
  q < w → length sigma = w →
  ∃ c m, get_conns_and_mels_Ry sigma q theta ls = Some (c, m)
         ∧ length c = 2 ∧ length m = 2
         ∧ Forall (λ row, length row = w) c.
Proof.
  intros Hq Hlen.
  destruct (lookup_lt_is_Some_2 sigma q) as [v Hv]; [lia|].
  rewrite (get_conns_and_mels_Ry_eq _ _ _ _ _ Hv).
  eexists _, _. split; [reflexivity|]. do 2 (split; [reflexivity|]).
  repeat constructor; [exact Hlen|]. rewrite length_insert. exact Hlen.
Qed.

(** X12.  On a batch of N configurations of length [hi.size], with a valid
    target and a numpy buffer [sections] of length N and of integer type
    [dt], the plain [get_conn_flattened] of Rx and of Ry writes the offsets
    2, 4, ..., 2N, cast to [dt], into [sections] and returns the 2N
    connections and the 2N amplitudes of [get_conn_padded] row after row:
    the entries 2n and 2n+1 are the connections, and the amplitudes, of row
    n.  When 2N does not exceed the largest value of [dt] the cast changes
    nothing; otherwise the offsets wrap around. *)
Theorem get_conn_flattened_Rx_Ry (dt : int_dtype) (hi : Hilbert) (q : nat)
    (theta : R) (x : list config) (sections : list Z) :
  q < size hi →
  Forall (λ sigma, length sigma = size hi) x →
  length sections = length x →
  let offsets := (λ n, 2 * (Z.of_nat n + 1))%Z <$> seq 0 (length x) in
  (∃ xp mels,
     Rx_get_conn_padded hi q theta x = Some (xp, mels)
     ∧ Rx_get_conn_flattened_dtype dt hi q theta x sections
       = (cast_int dt <$> offsets, Some (concat xp, concat mels))
     ∧ length (concat xp) = length x * 2
     ∧ length (concat mels) = length x * 2
     ∧ (∀ n c, xp !! n = Some c → take 2 (drop (n * 2) (concat xp)) = c)
     ∧ (∀ n m, mels !! n = Some m →
          take 2 (drop (n * 2) (concat mels)) = m))
  ∧ (∃ xp mels,
       Ry_get_conn_padded hi q theta x = Some (xp, mels)
       ∧ Ry_get_conn_flattened_dtype dt hi q theta x sections
         = (cast_int dt <$> offsets, Some (concat xp, concat mels))
       ∧ length (concat xp) = length x * 2
       ∧ length (concat mels) = length x * 2
       ∧ (∀ n c, xp !! n = Some c → take 2 (drop (n * 2) (concat xp)) = c)
       ∧ (∀ n m, mels !! n = Some m →
            take 2 (drop (n * 2) (concat mels)) = m))
  ∧ ((2 * Z.of_nat (length x) ≤ dtype_max dt)%Z →
     cast_int dt <$> offsets = offsets).
Proof.
  intros Hq Hx Hlen offsets.
  assert (Hpos : 0 < size hi) by lia.
  assert (Hbatch : reshape_batch x = Some x).
  { apply reshape_batch_Some. eapply Forall_impl; [exact Hx|].
    simpl. intros sigma ->. exact Hpos. }
  unfold Rx_get_conn_flattened_dtype, Rx_get_conn_padded,
    Ry_get_conn_flattened_dtype, Ry_get_conn_padded.
  rewrite Hbatch. cbn [mbind option_bind].
  split; [|split; [|apply cast_int_offsets]];
    apply get_conn_flattened_body_dtype_ok; try done;
    (eapply Forall_impl; [exact Hx|]); intros sigma Hs; simpl.
  - by apply Rx_block.
  - by apply Ry_block.
Qed.

Lemma reshape_rows_None {A : Type} (flat : list A) (w : nat) :
  w = 0 ∨ length flat `mod` w ≠ 0 → reshape_rows flat w = None.
Proof.
  intros Hw. unfold reshape_rows. case_bool_decide as Hz; [done|].
  destruct Hw as [Hw|Hw]; [done|].
  rewrite bool_decide_eq_false_2; done.
Qed.

(** X13.  [get_conn_flattened] writes [sections] before it reshapes the
    connections to rows of length [hi.size].  On a batch of configurations
    of a length L for which 2 N L is not a multiple of [hi.size] (or with
    [hi.size] = 0), the plain method of Rx and of Ry raises, and the offsets
    2, 4, ..., 2N, cast to the integer type [dt] of the buffer, are
    nevertheless left in the caller's buffer. *)
Theorem get_conn_flattened_raises_late (dt : int_dtype) (hi : Hilbert)
    (q : nat) (theta : R) (x : list config) (sections : list Z) (L : nat) :
  q < L →
  Forall (λ sigma, length sigma = L) x →
  length sections = length x →
  size hi = 0 ∨ (length x * 2 * L) `mod` size hi ≠ 0 →
  let offsets := (λ n, 2 * (Z.of_nat n + 1))%Z <$> seq 0 (length x) in
  Rx_get_conn_flattened_dtype dt hi q theta x sections
    = (cast_int dt <$> offsets, None)
  ∧ Ry_get_conn_flattened_dtype dt hi q theta x sections
    = (cast_int dt <$> offsets, None)
  ∧ ((2 * Z.of_nat (length x) ≤ dtype_max dt)%Z →
     cast_int dt <$> offsets = offsets).
Proof.
  intros Hq Hx Hlen Hsize offsets.
  assert (Hbatch : reshape_batch x = Some x).
  { apply reshape_batch_Some. eapply Forall_impl; [exact Hx|].
    simpl. intros sigma ->. lia. }
  assert (Hbody :
    ∀ (M : Type) (f : config → option (list config * list M)),
      Forall (λ sigma, ∃ c m, f sigma = Some (c, m)
                              ∧ length c = 2 ∧ length m = 2
                              ∧ Forall (λ row, length row = L) c) x →
      get_conn_flattened_body_dtype dt false hi (vmap f x) sections
      = (cast_int dt <$> offsets, None)).
  { intros M f Hrows.
    destruct (vmap_blocks f x 2 L Hrows)
      as (xp & mels & -> & Hlx & Hlm & Hxp & Hmels & Hwidth).
    unfold get_conn_flattened_body_dtype.
    rewrite (array_size_rows _ _ Hmels), Hlm, np_arange_offsets.
    rewrite setitem_all_same_length
      by (rewrite !length_fmap, length_seq; done).
    rewrite reshape_rows_None; [reflexivity|].
    rewrite (length_concat_rows _ _ Hwidth), (length_concat_rows _ _ Hxp).
    rewrite Hlx. exact Hsize. }
  unfold Rx_get_conn_flattened_dtype, Rx_get_conn_padded,
    Ry_get_conn_flattened_dtype, Ry_get_conn_padded.
  rewrite Hbatch. cbn [mbind option_bind].
  split; [|split; [|apply cast_int_offsets]];
    apply Hbody; (eapply Forall_impl; [exact Hx|]);
    intros sigma Hs; simpl.
  - by apply Rx_block.
  - by apply Ry_block.
Qed.

(** X14.  A buffer [sections] whose length is not that of the batch: the
    plain method of Rx raises and leaves the buffer as it was, unless the
    batch has exactly one row, in which case the single offset 2 is
    broadcast to every entry of the buffer. *)
Theorem get_conn_flattened_wrong_buffer (hi : Hilbert) (q : nat) (theta : R)
    (x : list config) (sections : list Z) :
  q < size hi →
  Forall (λ sigma, length sigma = size hi) x →
  length sections ≠ length x →
  (length x ≠ 1 →
   Rx_get_conn_flattened hi q theta x sections = (sections, None))
  ∧ (length x = 1 →
     fst (Rx_get_conn_flattened hi q theta x sections)
     = replicate (length sections) 2%Z).
Proof.
  intros Hq Hx Hlen.
  assert (Hbatch : reshape_batch x = Some x).
  { apply reshape_batch_Some. eapply Forall_impl; [exact Hx|].
    simpl. intros sigma ->. lia. }
  unfold Rx_get_conn_flattened, Rx_get_conn_padded.
  rewrite Hbatch. cbn [mbind option_bind].
  destruct (vmap_blocks
              (λ sigma, get_conns_and_mels_Rx sigma q theta
                          (local_states hi)) x 2 (size hi))
    as (xp & mels & -> & Hlx & Hlm & Hxp & Hmels & Hwidth).
  { eapply Forall_impl; [exact Hx|]. intros sigma Hs; simpl.
    by apply Rx_block. }
  unfold get_conn_flattened_body.
  rewrite (array_size_rows _ _ Hmels), Hlm, np_arange_offsets.
  split; intros Hone.
  - rewrite setitem_all_mismatch; [reflexivity| |];
      rewrite length_fmap, length_seq; congruence.
  - rewrite Hone. cbn [seq fmap list_fmap]. unfold setitem_all.
    rewrite bool_decide_eq_false_2 by (simpl; congruence).
    reflexivity.
Qed.

(** *** Targets out of range *)

(** Under the clamped reads and dropped writes of jnp, a target past the end
    of a non-empty configuration raises nothing: both connections are
    [sigma] itself, with the usual amplitudes, and the signs of Ry and of
    Hadamard are read at the last site.  On the empty configuration the
    three gates raise. *)
Lemma connect_target_out_of_range (sigma : config) (q : nat) (theta : R)
    (ls : V * V) (v : V) :
  length sigma ≤ q →
  last sigma = Some v →
  get_conns_and_mels_Rx sigma q theta ls
    = Some ([sigma; sigma],
            [RtoC (cos (theta / 2)); (0, - sin (theta / 2))%R])
  ∧ get_conns_and_mels_Ry sigma q theta ls
    = Some ([sigma; sigma],
            [RtoC (cos (theta / 2));
             RtoC (IZR (sign ls v) * sin (theta / 2))])
  ∧ get_conns_and_mels_Hadamard sigma q ls
    = Some ([sigma; sigma], [IZR (sign ls v) / sqrt 2; 1 / sqrt 2]%R)
  ∧ get_conns_and_mels_Rx [] q theta ls = None
  ∧ get_conns_and_mels_Ry [] q theta ls = None
  ∧ get_conns_and_mels_Hadamard [] q ls = None.
Proof.
  intros Hq Hv.
  assert (Hget : getitem sigma q = Some v).
  { rewrite getitem_clamped by exact Hq. exact Hv. }
  assert (Hset : ∀ w, at2_set (tile sigma 2) 1 q w = [sigma; sigma]).
  { intros w. unfold at2_set, tile. simpl.
    rewrite list_insert_ge by exact Hq. reflexivity. }
  assert (Hrow : at2_get [sigma; sigma] 0 q = Some v).
  { unfold at2_get. simpl. exact Hget. }
  split; [|split; [|split]].
  - unfold get_conns_and_mels_Rx. rewrite Hget. cbn [mbind option_bind].
    rewrite Hset. simpl. rewrite Cmult_minus_i. reflexivity.
  - unfold get_conns_and_mels_Ry. rewrite Hget. cbn [mbind option_bind].
    rewrite Hset, Hrow. reflexivity.
  - unfold get_conns_and_mels_Hadamard. rewrite Hget.
    cbn [mbind option_bind]. rewrite Hset, Hrow. reflexivity.
  - repeat split; reflexivity.
Qed.

(** *** The shape of the padded output *)

Lemma Hadamard_block (sigma : config) (q : nat) (ls : V * V) (w : nat) :
  q < w → length sigma = w →
  ∃ c m, get_conns_and_mels_Hadamard sigma q ls = Some (c, m)
         ∧ length c = 2 ∧ length m = 2
         ∧ Forall (λ row, length row = w) c.
Proof.
  intros Hq Hlen.
  destruct (lookup_lt_is_Some_2 sigma q) as [v Hv]; [lia|].
  rewrite (get_conns_and_mels_Hadamard_eq _ _ _ _ Hv).
  eexists _, _. split; [reflexivity|]. do 2 (split; [reflexivity|]).
  repeat constructor; [exact Hlen|]. rewrite length_insert. exact Hlen.
Qed.

Lemma Hadamard_multi_block (sigma : config) (qs : list nat) (ls : V * V)
    (w : nat) :
  Forall (λ p, p < w) qs → length sigma = w →
  ∃ c m, get_conns_and_mels_Hadamard_multiple sigma qs ls = Some (c, m)
         ∧ length c = 2 ^ length qs ∧ length m = 2 ^ length qs
         ∧ Forall (λ row, length row = w) c.
Proof.
  intros Hqs Hlen. subst w.
  destruct (get_conns_and_mels_Hadamard_multiple_rows sigma qs ls Hqs)
    as (conns & mels & -> & Hlc & Hlm & Hrows).
  exists conns, mels. do 3 (split; [done|]).
  apply Forall_lookup. intros i c Hc.
  apply lookup_lt_Some in Hc as Hi. rewrite Hlc in Hi.
  destruct (Hrows i Hi) as (c' & _ & Hc' & Hl & _). congruence.
Qed.

(** X15.  On a batch of N configurations of length L > 0 with valid
    targets, [get_conn_padded] returns, for each gate, N blocks of
    [max_conn_size] connections of length L and N blocks of [max_conn_size]
    amplitudes: the shapes (N, max_conn_size, L) and (N, max_conn_size). *)
Theorem get_conn_padded_shape (hi : Hilbert) (q : nat) (qs : list nat)
    (theta : R) (x : list config) (L : nat) :
  q < L →
  Forall (λ p, p < L) qs →
  Forall (λ sigma, length sigma = L) x →
  let shape {M : Type} (g : gate)
        (r : option (list (list config) * list (list M))) :=
    ∃ xp mels,
      r = Some (xp, mels)
      ∧ length xp = length x ∧ length mels = length x
      ∧ Forall (λ c, length c = max_conn_size g) xp
      ∧ Forall (λ m, length m = max_conn_size g) mels
      ∧ Forall (λ row, length row = L) (concat xp) in
  shape (Rx hi q theta) (Rx_get_conn_padded hi q theta x)
  ∧ shape (Ry hi q theta) (Ry_get_conn_padded hi q theta x)
  ∧ shape (Hadamard hi q) (Hadamard_get_conn_padded hi q x)
  ∧ shape (Hadamard_multi hi qs) (Hadamard_multi_get_conn_padded hi qs x).
Proof.
  intros Hq Hqs Hx shape.
  assert (Hbatch : reshape_batch x = Some x).
  { apply reshape_batch_Some. eapply Forall_impl; [exact Hx|].
    simpl. intros sigma ->. lia. }
  unfold shape, Rx_get_conn_padded, Ry_get_conn_padded,
    Hadamard_get_conn_padded, Hadamard_multi_get_conn_padded.
  rewrite Hbatch. cbn [mbind option_bind max_conn_size].
  split; [|split; [|split]]; apply vmap_blocks;
    (eapply Forall_impl; [exact Hx|]); intros sigma Hs; simpl.
  - by apply Rx_block.
  - by apply Ry_block.
  - by apply Hadamard_block.
  - by apply Hadamard_multi_block.
Qed.

(** *** More on Hadamard_multi *)

(** X16.  Every amplitude of Hadamard_multi on k valid targets is
    1/sqrt(2^k) or its opposite. *)
Theorem Hadamard_multi_amplitudes (sigma : config) (qs : list nat)
    (ls : V * V) :
  Forall (λ p, p < length sigma) qs →
  ∃ conns mels,
    get_conns_and_mels_Hadamard_multiple sigma qs ls = Some (conns, mels)
    ∧ Forall (λ m, m = (1 / sqrt (2 ^ length qs))%R
                   ∨ m = (- (1 / sqrt (2 ^ length qs)))%R) mels.
Proof.
  intros Hvalid.
  destruct (get_conns_and_mels_Hadamard_multiple_rows sigma qs ls Hvalid)
    as (conns & mels & Heq & _ & Hlm & Hrows).
  exists conns, mels. split; [exact Heq|].
  apply Forall_lookup. intros i m Hm.
  apply lookup_lt_Some in Hm as Hi. rewrite Hlm in Hi.
  destruct (Hrows i Hi) as (c & vals & _ & _ & _ & _ & Hm').
  rewrite Hm' in Hm. injection Hm as <-. rewrite INR_pow2.
  destruct (prod_signs ls vals) as [-> | ->]; [left|right]; lra.
Qed.

Lemma combination_pow2 (qs : list nat) (j p : nat) :
  qs !! j = Some p →
  ∀ p', p' ∈ combination qs (2 ^ j)
        ↔ ∃ m, qs !! m = Some p' ∧ m = j.
Proof.
  intros Hj p'. rewrite elem_of_combination.
  split; intros (m & Hm & Hbit); exists m; (split; [exact Hm|]).
  - rewrite Nat.pow2_bits_eqb in Hbit. by apply Nat.eqb_eq in Hbit.
  - subst m. rewrite Nat.pow2_bits_eqb. apply Nat.eqb_refl.
Qed.

(** X17.  Repeated targets are not rejected: when the same site stands at
    two positions j and j' of the targets, the connections of the counters
    2^j and 2^j' are one and the same configuration. *)
Theorem Hadamard_multi_repeated_target (sigma : config) (qs : list nat)
    (ls : V * V) (j j' p : nat) :
  Forall (λ p, p < length sigma) qs →
  j ≠ j' →
  qs !! j = Some p →
  qs !! j' = Some p →
  ∃ conns mels c,
    get_conns_and_mels_Hadamard_multiple sigma qs ls = Some (conns, mels)
    ∧ 2 ^ j ≠ 2 ^ j'
    ∧ conns !! (2 ^ j) = Some c
    ∧ conns !! (2 ^ j') = Some c.
Proof.
  intros Hvalid Hne Hj Hj'.
  destruct (get_conns_and_mels_Hadamard_multiple_rows sigma qs ls Hvalid)
    as (conns & mels & Heq & _ & _ & Hrows).
  assert (Hlt : ∀ m, m < length qs → 2 ^ m < 2 ^ length qs).
  { intros m Hm. apply Nat.pow_lt_mono_r; lia. }
  destruct (Hrows (2 ^ j)) as (c & _ & Hc & _ & Hsites & _).
  { apply Hlt. eapply lookup_lt_Some, Hj. }
  destruct (Hrows (2 ^ j')) as (c' & _ & Hc' & _ & Hsites' & _).
  { apply Hlt. eapply lookup_lt_Some, Hj'. }
  exists conns, mels, c. split; [exact Heq|].
  split.
  { intros Hpow. apply Nat.pow_inj_r in Hpow; [done|lia]. }
  split; [exact Hc|]. rewrite Hc'. f_equal.
  apply list_eq. intros p'. rewrite Hsites, Hsites'.
  assert (Hiff : p' ∈ combination qs (2 ^ j)
                 ↔ p' ∈ combination qs (2 ^ j')).
  { rewrite (combination_pow2 qs j p Hj), (combination_pow2 qs j' p Hj').
    split; intros (m & Hm & ->); [exists j'|exists j];
      (split; [congruence|reflexivity]). }
  destruct (decide (p' ∈ combination qs (2 ^ j))) as [Hin|Hnin].
  - rewrite decide_True; [done|]. by apply Hiff.
  - rewrite decide_False; [done|]. by rewrite <- Hiff.
Qed.
End Gates.










(** ** The package initialiser *)

Lemma import_from_Measure_0 (namespace : list string) :
  import_from singlequbit_gates_namespace init_import_names namespace
  = ImportError "Measure_0".
Proof. reflexivity. Qed.

Lemma not_defined_in_singlequbit_gates (name : string) :
  bool_decide (name ∈ singlequbit_gates_namespace) = false →
  name ∉ singlequbit_gates_namespace.
Proof. apply bool_decide_eq_false. Qed.

(** C9.  Whatever the installation, running the initialiser of
    [netket_fidelity.operator] ends in ImportError: once the imports it
    depends on succeed, line 3 asks [singlequbit_gates] for [Measure_0] (and
    [Measure_1]), which that module does not define.  So no attribute can be
    read from the package, and [Hadamard_multi] is not even among the
    names line 3 asks for. *)
Theorem operator_import_raises (env : environment) :
  (∃ name, operator_init env = ImportError name)
  ∧ (∀ name, package_attribute env name = false)
  ∧ ("Measure_0" ∉ singlequbit_gates_namespace)
  ∧ ("Measure_1" ∉ singlequbit_gates_namespace)
  ∧ ("Hadamard_multi" ∉ init_import_names)
  ∧ (∀ namespace,
       import_from singlequbit_gates_namespace init_import_names namespace
       = ImportError "Measure_0").
Proof.
  assert (Hraises : ∃ name, operator_init env = ImportError name).
  { unfold operator_init.
    destruct (netket_utils env) as [utils_ns|]; [|eauto].
    destruct (import_from utils_ns _ _) as [namespace|name]; [|eauto].
    destruct (gates_dependencies env); [|eauto].
    rewrite import_from_Measure_0. eauto. }
  split; [exact Hraises|].
  split.
  { intros name. unfold package_attribute.
    destruct Hraises as [missing ->]. reflexivity. }
  split; [by apply not_defined_in_singlequbit_gates|].
  split; [by apply not_defined_in_singlequbit_gates|].
  split; [|apply import_from_Measure_0].
  apply (bool_decide_eq_false_1 ("Hadamard_multi" ∈ init_import_names)).
  reflexivity.
Qed.

(** With every dependency in place the name reported missing is
    [Measure_0]. *)
Example operator_import_Measure_0 :
  operator_init (mkEnvironment (Some ["_hide_submodules"]) true)
  = ImportError "Measure_0".
Proof. reflexivity. Qed.

(** ** Runs on concrete inputs, with the local states 0 and 1 *)

(** Hadamard_multi on the targets 0 and 1: four connections, in the order
    of the flip sets {}, {0}, {1}, {0, 1}. *)
Example Hadamard_multi_01_conns :
  fst <$> get_conns_and_mels_Hadamard_multiple [0; 0; 0]%Z [0; 1] (0, 1)%Z
  = Some [[0; 0; 0]; [1; 0; 0]; [0; 1; 0]; [1; 1; 0]]%Z.
Proof. reflexivity. Qed.

(** A value outside the local states is flipped to state_0, and the next
    flip does not return it. *)
Example flipped_foreign_value :
  flipped (0, 1)%Z 7%Z = 0%Z ∧ flipped (0, 1)%Z (flipped (0, 1)%Z 7%Z) = 1%Z.
Proof. split; reflexivity. Qed.

(** Rx at angle 0 is the identity: amplitudes 1 and 0. *)
Example Rx_angle_0 :
  snd <$> get_conns_and_mels_Rx [0; 1]%Z 0 0%R (0, 1)%Z
  = Some [(1, 0); (0, 0)]%R.
Proof.
  rewrite (get_conns_and_mels_Rx_eq _ _ _ _ 0%Z) by reflexivity.
  simpl. unfold RtoC.
  replace (0 / 2)%R with 0%R by lra. rewrite cos_0, sin_0.
  do 4 f_equal. lra.
Qed.

(** Rx at angle pi: amplitudes 0 and -i. *)
Example Rx_angle_PI :
  snd <$> get_conns_and_mels_Rx [0; 1]%Z 0 PI (0, 1)%Z
  = Some [(0, 0); (0, -1)]%R.
Proof.
  rewrite (get_conns_and_mels_Rx_eq _ _ _ _ 0%Z) by reflexivity.
  simpl. unfold RtoC. rewrite cos_PI2, sin_PI2. do 4 f_equal. 
Qed.

(** C6, at Hadamard_multi on the targets 0 and 1 and a batch of one
    configuration.  The offset expected in [sections] is 4 = max_conn_size;
    the method computes the two offsets 2 and 4, which do not fit the
    one-entry buffer, so it raises and the buffer keeps its content, both
    under [jax.jit] (as the method is declared) and without it. *)
Theorem Hadamard_multi_sections_not_filled :
  max_conn_size (Hadamard_multi (mkHilbert (0, 1)%Z 2) [0; 1]) = 4
  ∧ np_arange 2 (4 + 2) 2 = [2; 4]%Z
  ∧ Hadamard_multi_get_conn_flattened (mkHilbert (0, 1)%Z 2) [0; 1]
      [[0; 1]%Z] [0%Z] = ([0%Z], None)
  ∧ get_conn_flattened_body false (mkHilbert (0, 1)%Z 2)
      (Hadamard_multi_get_conn_padded (mkHilbert (0, 1)%Z 2) [0; 1]
         [[0; 1]%Z]) [0%Z] = ([0%Z], None).
Proof.
  split; [reflexivity|]. split; [reflexivity|].
  split; [exact (proj2 (sections_under_jit _ 0 _ _ _))|].
  apply sections_Hadamard_multi_body; simpl; try done.
  repeat constructor.
Qed.

(** C7, at Hadamard_multi: an instance does not compare equal to an
    instance with the same parameters, nor to itself. *)
Theorem Hadamard_multi_eq_not_reflexive :
  eq_ (Hadamard_multi (mkHilbert (0, 1)%Z 2) [0; 1])
      (Obj (Hadamard_multi (mkHilbert (0, 1)%Z 2) [0; 1])) = false.
Proof. reflexivity. Qed.

(** ** The theorems at concrete inputs *)

(** Rx at angle pi on the configuration (0, 1), target 0. *)
Lemma Rx_connect_witness :
  [0; 1]%Z !! 0 = Some 0%Z
  ∧ ∃ conns mels,
      get_conns_and_mels_Rx [0; 1]%Z 0 PI (0, 1)%Z = Some (conns, mels)
      ∧ length conns = 2 ∧ length mels = 2
      ∧ conns !! 0 = Some [0; 1]%Z
      ∧ (∃ c, conns !! 1 = Some c ∧ c !! 0 = Some 1%Z)
      ∧ mels !! 0 = Some (cos (PI / 2), 0)%R
      ∧ mels !! 1 = Some (0, - sin (PI / 2))%R.
Proof.
  split; [reflexivity|].
  destruct (Rx_connect [0; 1]%Z 0 PI (0, 1)%Z 0%Z eq_refl)
    as (conns & mels & Heq & Hlc & Hlm & Hc0 & Hc1 & Hm0 & Hm1).
  destruct Hc1 as (c & Hc & _ & _ & Hflip & _).
  exists conns, mels. repeat split; try assumption.
  exists c. split; [assumption|]. apply Hflip. reflexivity.
Defined.

(** Ry at angle pi on the configuration (1, 0), target 0: the input holds
    state_1 there, the amplitude is - sin(pi/2). *)
Lemma Ry_offdiagonal_sign_witness :
  [1; 0]%Z !! 0 = Some 1%Z
  ∧ ∃ conns mels,
      get_conns_and_mels_Ry [1; 0]%Z 0 PI (0, 1)%Z = Some (conns, mels)
      ∧ conns !! 0 = Some [1; 0]%Z
      ∧ conns !! 1 = Some [0; 0]%Z
      ∧ mels !! 1 = Some (- sin (PI / 2), 0)%R.
Proof.
  split; [reflexivity|].
  destruct (Ry_offdiagonal_sign [1; 0]%Z 0 PI (0, 1)%Z 1%Z eq_refl)
    as (conns & mels & Heq & Hc0 & Hc1 & _ & Hm1).
  exists conns, mels. repeat split; try assumption.
  apply Hm1. discriminate.
Defined.

Lemma list_of_three {A : Type} (c : list A) (a b d : A) :
  length c = 3 → c !! 0 = Some a → c !! 1 = Some b → c !! 2 = Some d →
  c = [a; b; d].
Proof.
  destruct c as [|a' [|b' [|d' [|e c]]]]; simpl; try discriminate.
  intros _ [= ->] [= ->] [= ->]. reflexivity.
Qed.

Lemma values_at_two {A : Type} (c : list A) (q0 q1 : nat) (a b : A)
    (vals : list A) :
  Forall2 (λ q v, c !! q = Some v) [q0; q1] vals →
  c !! q0 = Some a → c !! q1 = Some b → vals = [a; b].
Proof.
  intros Hvals Ha Hb.
  apply Forall2_cons_inv_l in Hvals as (a' & vals' & Ha' & Hvals & ->).
  apply Forall2_cons_inv_l in Hvals as (b' & vals'' & Hb' & Hvals & ->).
  apply Forall2_nil_inv_l in Hvals as ->. congruence.
Qed.

(** Hadamard_multi on the targets 0 and 1 of the configuration (0, 1, 0),
    with the local states 0 and 1.  Counter 2 flips site 1, from state_1 to
    state_0: both targets then hold state_0, the amplitude is 1/sqrt(4).
    Counter 3 flips both targets: site 0 holds state_1 and site 1 state_0,
    the amplitude is -1/sqrt(4). *)
Lemma Hadamard_multi_connect_witness :
  Forall (λ q, q < length [0; 1; 0]%Z) [0; 1]
  ∧ ∃ conns mels,
      get_conns_and_mels_Hadamard_multiple [0; 1; 0]%Z [0; 1] (0, 1)%Z
        = Some (conns, mels)
      ∧ length conns = 4
      ∧ length mels = 4
      ∧ conns !! 2 = Some [0; 0; 0]%Z
      ∧ mels !! 2 = Some (IZR 1 / sqrt (2 ^ 2))%R
      ∧ conns !! 3 = Some [1; 0; 0]%Z
      ∧ mels !! 3 = Some (IZR (-1) / sqrt (2 ^ 2))%R.
Proof.
  assert (Hvalid : Forall (λ q, q < length [0; 1; 0]%Z) [0; 1]).
  { repeat (constructor; [simpl; lia|]). constructor. }
  split; [exact Hvalid|].
  destruct (Hadamard_multi_connect [0; 1; 0]%Z [0; 1] (0, 1)%Z Hvalid)
    as (conns & mels & Heq & Hlc & Hlm & Hrows).
  exists conns, mels. do 3 (split; [assumption|]).
  destruct (Hrows 2) as (c & vals & Hc & Hlen & Hset & Hclear & Hvals & Hm).
  { simpl. lia. }
  assert (c = [0; 0; 0]%Z) as ->.
  { apply list_of_three; [exact Hlen| | |].
    - apply (Hclear 0). intros [|[|j]]; simpl; intros; try discriminate.
      reflexivity.
    - exact (Hset 1 1 1%Z eq_refl eq_refl eq_refl).
    - apply (Hclear 2). intros [|[|j]]; simpl; discriminate. }
  assert (vals = [0; 0]%Z) as ->.
  { apply (values_at_two _ _ _ _ _ _ Hvals); reflexivity. }
  do 2 (split; [assumption|]).
  destruct (Hrows 3)
    as (c & vals & Hc' & Hlen' & Hset' & Hclear' & Hvals' & Hm').
  { simpl. lia. }
  assert (c = [1; 0; 0]%Z) as ->.
  { apply list_of_three; [exact Hlen'| | |].
    - exact (Hset' 0 0 0%Z eq_refl eq_refl eq_refl).
    - exact (Hset' 1 1 1%Z eq_refl eq_refl eq_refl).
    - apply (Hclear' 2). intros [|[|j]]; simpl; discriminate. }
  assert (vals = [1; 0]%Z) as ->.
  { apply (values_at_two _ _ _ _ _ _ Hvals'); reflexivity. }
  split; assumption.
Defined.



(** A batch of two configurations. *)
Lemma batch_independence_witness :
  Forall (λ sigma : list Z, 1 < length sigma) [[0; 1]; [1; 1]]%Z
  ∧ Forall (λ sigma : list Z, Forall (λ q, q < length sigma) [0; 1])
      [[0; 1]; [1; 1]]%Z
  ∧ (∃ xp mels,
       Ry_get_conn_padded (mkHilbert (0, 1)%Z 2) 1 PI [[0; 1]; [1; 1]]%Z
         = Some (xp, mels)
       ∧ ∃ c m,
           get_conns_and_mels_Ry [1; 1]%Z 1 PI (0, 1)%Z = Some (c, m)
           ∧ xp !! 1 = Some c ∧ mels !! 1 = Some m)
  ∧ (∃ xp mels,
       Hadamard_multi_get_conn_padded (mkHilbert (0, 1)%Z 2) [0; 1]
         [[0; 1]; [1; 1]]%Z = Some (xp, mels)
       ∧ ∃ c m,
           get_conns_and_mels_Hadamard_multiple [1; 1]%Z [0; 1] (0, 1)%Z
             = Some (c, m)
           ∧ xp !! 1 = Some c ∧ mels !! 1 = Some m).
Proof.
  assert (Hidx : Forall (λ sigma : list Z, 1 < length sigma)
                   [[0; 1]; [1; 1]]%Z).
  { repeat (constructor; [simpl; lia|]). constructor. }
  assert (Hidxs : Forall (λ sigma : list Z,
                            Forall (λ q, q < length sigma) [0; 1])
                    [[0; 1]; [1; 1]]%Z).
  { repeat (constructor;
            [repeat (constructor; [simpl; lia|]); constructor|]).
    constructor. }
  do 2 (split; [assumption|]).
  destruct (batch_independence (mkHilbert (0, 1)%Z 2) 1 [0; 1] PI
              [[0; 1]; [1; 1]]%Z Hidx Hidxs) as (_ & Hry & _ & Hmulti).
  split.
  - destruct Hry as (xp & mels & Heq & _ & _ & Hrows).
    exists xp, mels. split; [assumption|].
    apply (Hrows 1 [1; 1]%Z). reflexivity.
  - destruct Hmulti as (xp & mels & Heq & _ & _ & Hrows).
    exists xp, mels. split; [assumption|].
    apply (Hrows 1 [1; 1]%Z). reflexivity.
Defined.

(** The value 7 is outside the local states 0 and 1: every gate writes
    state_0 over it, and a second flip gives state_1, not 7. *)
Lemma flip_is_state_0_test_witness :
  [7; 1]%Z !! 0 = Some 7%Z
  ∧ Forall (λ q, q < length [7; 1]%Z) [1; 0]
  ∧ [1; 0] !! 1 = Some 0
  ∧ 2 < 2 ^ length [1; 0]
  ∧ Nat.testbit 2 1 = true
  ∧ (∃ conns mels c,
       get_conns_and_mels_Rx [7; 1]%Z 0 PI (0, 1)%Z = Some (conns, mels)
       ∧ conns !! 1 = Some c ∧ c !! 0 = Some 0%Z)
  ∧ (∃ conns mels c,
       get_conns_and_mels_Hadamard_multiple [7; 1]%Z [1; 0] (0, 1)%Z
         = Some (conns, mels)
       ∧ conns !! 2 = Some c ∧ c !! 0 = Some 0%Z)
  ∧ ¬ (flipped (0, 1)%Z 0%Z = 7%Z).
Proof.
  assert (Hvalid : Forall (λ q, q < length [7; 1]%Z) [1; 0]).
  { repeat (constructor; [simpl; lia|]). constructor. }
  assert (Hi : 2 < 2 ^ length [1; 0]) by (simpl; lia).
  split; [reflexivity|]. split; [exact Hvalid|]. split; [reflexivity|].
  split; [exact Hi|]. split; [reflexivity|].
  destruct (flip_is_state_0_test [7; 1]%Z 0 7%Z PI (0, 1)%Z [1; 0] 2 1
              eq_refl Hvalid eq_refl Hi eq_refl)
    as (Hrx & _ & _ & Hmulti & Hinv).
  split; [exact Hrx|]. split; [exact Hmulti|].
  intros Hback. apply Hinv in Hback as [Hback|Hback]; discriminate.
Defined.

(** ** The further theorems at concrete inputs *)

(** A Rx gate and a Hadamard gate against gates on another Hilbert
    space. *)
Lemma eq_characterisation_witness :
  class_of (Rx (mkHilbert (0, 1)%Z 2) 0 PI) ≠ Hadamard_multi_class
  ∧ class_of (Rx (mkHilbert (1, -1)%Z 3) 0 PI) ≠ Hadamard_multi_class
  ∧ class_of (Hadamard (mkHilbert (0, 1)%Z 2) 0) ≠ Hadamard_multi_class
  ∧ eq_ (Rx (mkHilbert (0, 1)%Z 2) 0 PI)
        (Obj (Rx (mkHilbert (1, -1)%Z 3) 0 PI)) = true
  ∧ eq_ (Rx (mkHilbert (0, 1)%Z 2) 0 PI)
        (Obj (Rx (mkHilbert (1, -1)%Z 3) 0 PI))
    = eq_ (Rx (mkHilbert (1, -1)%Z 3) 0 PI)
          (Obj (Rx (mkHilbert (0, 1)%Z 2) 0 PI)).
Proof.
  assert (Hrx : class_of (Rx (mkHilbert (0, 1)%Z 2) 0 PI)
                ≠ Hadamard_multi_class) by discriminate.
  assert (Hrx' : class_of (Rx (mkHilbert (1, -1)%Z 3) 0 PI)
                 ≠ Hadamard_multi_class) by discriminate.
  assert (Hh : class_of (Hadamard (mkHilbert (0, 1)%Z 2) 0)
               ≠ Hadamard_multi_class) by discriminate.
  do 3 (split; [assumption|]).
  destruct (eq_characterisation
              (Rx (mkHilbert (0, 1)%Z 2) 0 PI)
              (Rx (mkHilbert (1, -1)%Z 3) 0 PI)
              (Hadamard (mkHilbert (0, 1)%Z 2) 0)
              (mkHilbert (0, 1)%Z 2) (mkHilbert (1, -1)%Z 3) 0 PI
              Hrx Hrx' Hh) as (Hiff & Hsym & _ & _).
  split; [|exact Hsym].
  apply Hiff. repeat split; reflexivity.
Defined.

Lemma Hadamard_twice_witness :
  [0; 1]%Z !! 1 = Some 1%Z
  ∧ (1%Z = 0%Z ∨ 1%Z = 1%Z)
  ∧ 0%Z ≠ 1%Z
  ∧ ∃ c1 m0 m1 m10 m11,
      get_conns_and_mels_Hadamard_f64 [0; 1]%Z 1 (0, 1)%Z
      = Some ([[0; 1]%Z; c1], [m0; m1])
      ∧ get_conns_and_mels_Hadamard_f64 c1 1 (0, 1)%Z
        = Some ([c1; [0; 1]%Z], [m10; m11])
      ∧ (m0 * m1 + m1 * m10)%float = 0%float
      ∧ (m0 * m0 + m1 * m11)%float = 0x1.ffffffffffffep-1%float.
Proof.
  assert (Hne : 0%Z ≠ 1%Z) by discriminate.
  exact (conj eq_refl
           (conj (or_intror eq_refl)
              (conj Hne
                 (Hadamard_twice [0; 1]%Z 1 (0, 1)%Z 1%Z
                    eq_refl (or_intror eq_refl) Hne)))).
Defined.

(** On (0, 1) with target 0, which holds state_0, the second amplitude of
    Hadamard_multi is - 1/sqrt(2). *)
Lemma Hadamard_multi_single_target_witness :
  [0; 1]%Z !! 0 = Some 0%Z
  ∧ (0%Z = 0%Z ∨ 0%Z = 1%Z)
  ∧ 0%Z ≠ 1%Z
  ∧ ∃ c1 m0 m1 n1,
      get_conns_and_mels_Hadamard [0; 1]%Z 0 (0, 1)%Z
      = Some ([[0; 1]%Z; c1], [m0; m1])
      ∧ get_conns_and_mels_Hadamard_multiple [0; 1]%Z [0] (0, 1)%Z
        = Some ([[0; 1]%Z; c1], [m0; n1])
      ∧ m1 = (1 / sqrt 2)%R
      ∧ n1 = (- (1 / sqrt 2))%R.
Proof.
  assert (Hne : 0%Z ≠ 1%Z) by discriminate.
  do 3 (split; [first [reflexivity | left; reflexivity | exact Hne]|]).
  destruct (Hadamard_multi_single_target [0; 1]%Z 0 (0, 1)%Z 0%Z
              eq_refl (or_introl eq_refl) Hne)
    as (c1 & m0 & m1 & n1 & n10 & n11 & Hh & Hm & _ & Hm1 & Hn1 & _).
  exists c1, m0, m1, n1. repeat split; try assumption.
  apply Hn1. reflexivity.
Defined.

Lemma Hadamard_multi_conns_distinct_witness :
  Forall (λ q, q < length [0; 1; 0]%Z) [2; 0]
  ∧ NoDup [2; 0]
  ∧ 0%Z ≠ 1%Z
  ∧ ∃ conns mels,
      get_conns_and_mels_Hadamard_multiple [0; 1; 0]%Z [2; 0] (0, 1)%Z
      = Some (conns, mels)
      ∧ length conns = 2 ^ length [2; 0]
      ∧ NoDup conns.
Proof.
  assert (Hvalid : Forall (λ q, q < length [0; 1; 0]%Z) [2; 0]).
  { repeat (constructor; [simpl; lia|]). constructor. }
  assert (Hnodup : NoDup [2; 0]).
  { repeat (constructor; [intros Hin;
      repeat (apply elem_of_cons in Hin as [Hin|Hin]; [discriminate|]);
      by apply elem_of_nil in Hin|]). constructor. }
  assert (Hne : 0%Z ≠ 1%Z) by discriminate.
  exact (conj Hvalid
           (conj Hnodup
              (conj Hne
                 (Hadamard_multi_conns_distinct [0; 1; 0]%Z [2; 0] (0, 1)%Z
                    Hvalid Hnodup Hne)))).
Defined.

Lemma connections_well_formed_witness :
  1 < length [0; 1; 1]%Z
  ∧ Forall (λ p, p < length [0; 1; 1]%Z) [0; 2]
  ∧ (∃ conns mels,
       get_conns_and_mels_Ry [0; 1; 1]%Z 1 PI (0, 1)%Z = Some (conns, mels)
       ∧ Forall (λ c, length c = 3) conns)
  ∧ (∃ conns mels,
       get_conns_and_mels_Hadamard_multiple [0; 1; 1]%Z [0; 2] (0, 1)%Z
       = Some (conns, mels)
       ∧ Forall (λ c, length c = 3 ∧ c !! 1 = Some 1%Z) conns).
Proof.
  assert (Hq : 1 < length [0; 1; 1]%Z) by (simpl; lia).
  assert (Hqs : Forall (λ p, p < length [0; 1; 1]%Z) [0; 2]).
  { repeat (constructor; [simpl; lia|]). constructor. }
  do 2 (split; [assumption|]).
  destruct (connections_well_formed [0; 1; 1]%Z 1 [0; 2] PI (0, 1)%Z Hq Hqs)
    as (_ & Hry & _ & Hmulti).
  split.
  - destruct Hry as (conns & mels & Heq & Hwf).
    exists conns, mels. split; [exact Heq|].
    eapply Forall_impl; [exact Hwf|]. intros c (Hlen & _). exact Hlen.
  - destruct Hmulti as (conns & mels & Heq & Hwf).
    exists conns, mels. split; [exact Heq|].
    eapply Forall_impl; [exact Hwf|]. intros c (Hlen & Hother & _).
    split; [exact Hlen|]. apply (Hother 1).
    intros Hin.
    repeat (apply elem_of_cons in Hin as [Hin|Hin]; [discriminate|]).
    by apply elem_of_nil in Hin.
Defined.

Lemma get_conn_flattened_Rx_Ry_witness :
  0 < size (mkHilbert (0, 1)%Z 2)
  ∧ Forall (λ sigma : list Z, length sigma = size (mkHilbert (0, 1)%Z 2))
      [[0; 1]; [1; 1]]%Z
  ∧ length [0; 0]%Z = length [[0; 1]; [1; 1]]%Z
  ∧ ∃ xp mels,
      Rx_get_conn_padded (mkHilbert (0, 1)%Z 2) 0 PI [[0; 1]; [1; 1]]%Z
      = Some (xp, mels)
      ∧ Rx_get_conn_flattened_dtype int64 (mkHilbert (0, 1)%Z 2) 0 PI
          [[0; 1]; [1; 1]]%Z [0; 0]%Z
        = ([2; 4]%Z, Some (concat xp, concat mels))
      ∧ length (concat xp) = 4.
Proof.
  assert (Hq : 0 < size (mkHilbert (0, 1)%Z 2)) by (simpl; lia).
  assert (Hx : Forall (λ sigma : list Z,
                         length sigma = size (mkHilbert (0, 1)%Z 2))
                 [[0; 1]; [1; 1]]%Z).
  { repeat (constructor; [reflexivity|]). constructor. }
  split; [exact Hq|]. split; [exact Hx|]. split; [reflexivity|].
  destruct (get_conn_flattened_Rx_Ry int64 (mkHilbert (0, 1)%Z 2) 0 PI
              [[0; 1]; [1; 1]]%Z [0; 0]%Z Hq Hx eq_refl)
    as ((xp & mels & Hp & Hf & Hlx & _) & _).
  exists xp, mels. repeat split; assumption.
Defined.

(** Configurations of length 3 on a Hilbert space declared of size 4: six
    connections of three sites do not fill rows of four. *)
Lemma get_conn_flattened_raises_late_witness :
  0 < 3
  ∧ Forall (λ sigma : list Z, length sigma = 3) [[0; 1; 0]%Z]
  ∧ length [7%Z] = length [[0; 1; 0]%Z]
  ∧ (size (mkHilbert (0, 1)%Z 4) = 0
     ∨ (length [[0; 1; 0]%Z] * 2 * 3) `mod` size (mkHilbert (0, 1)%Z 4) ≠ 0)
  ∧ Rx_get_conn_flattened_dtype int8 (mkHilbert (0, 1)%Z 4) 0 PI
      [[0; 1; 0]%Z] [7%Z]
    = ([2%Z], None).
Proof.
  assert (Hq : 0 < 3) by lia.
  assert (Hx : Forall (λ sigma : list Z, length sigma = 3) [[0; 1; 0]%Z]).
  { repeat (constructor; [reflexivity|]). constructor. }
  assert (Hsize : size (mkHilbert (0, 1)%Z 4) = 0
                  ∨ (length [[0; 1; 0]%Z] * 2 * 3)
                      `mod` size (mkHilbert (0, 1)%Z 4) ≠ 0).
  { right. simpl. discriminate. }
  split; [exact Hq|]. split; [exact Hx|]. split; [reflexivity|].
  split; [exact Hsize|].
  exact (proj1 (get_conn_flattened_raises_late int8
                  (mkHilbert (0, 1)%Z 4) 0 PI
                  [[0; 1; 0]%Z] [7%Z] 3 Hq Hx eq_refl Hsize)).
Defined.

Lemma get_conn_flattened_wrong_buffer_witness :
  0 < size (mkHilbert (0, 1)%Z 2)
  ∧ Forall (λ sigma : list Z, length sigma = size (mkHilbert (0, 1)%Z 2))
      [[0; 1]; [1; 1]]%Z
  ∧ length [7; 7; 7]%Z ≠ length [[0; 1]; [1; 1]]%Z
  ∧ Rx_get_conn_flattened (mkHilbert (0, 1)%Z 2) 0 PI [[0; 1]; [1; 1]]%Z
      [7; 7; 7]%Z = ([7; 7; 7]%Z, None).
Proof.
  assert (Hq : 0 < size (mkHilbert (0, 1)%Z 2)) by (simpl; lia).
  assert (Hx : Forall (λ sigma : list Z,
                         length sigma = size (mkHilbert (0, 1)%Z 2))
                 [[0; 1]; [1; 1]]%Z).
  { repeat (constructor; [reflexivity|]). constructor. }
  assert (Hlen : length [7; 7; 7]%Z ≠ length [[0; 1]; [1; 1]]%Z).
  { simpl. discriminate. }
  split; [exact Hq|]. split; [exact Hx|]. split; [exact Hlen|].
  apply (proj1 (get_conn_flattened_wrong_buffer (mkHilbert (0, 1)%Z 2) 0 PI
                  [[0; 1]; [1; 1]]%Z [7; 7; 7]%Z Hq Hx Hlen)).
  simpl. discriminate.
Defined.

Lemma get_conn_padded_shape_witness :
  0 < 2
  ∧ Forall (λ p, p < 2) [0; 1]
  ∧ Forall (λ sigma : list Z, length sigma = 2) [[0; 1]; [1; 1]]%Z
  ∧ ∃ xp mels,
      Hadamard_multi_get_conn_padded (mkHilbert (0, 1)%Z 2) [0; 1]
        [[0; 1]; [1; 1]]%Z = Some (xp, mels)
      ∧ length xp = 2 ∧ length mels = 2
      ∧ Forall (λ c, length c = 4) xp
      ∧ Forall (λ m, length m = 4) mels
      ∧ Forall (λ row, length row = 2) (concat xp).
Proof.
  assert (Hq : 0 < 2) by lia.
  assert (Hqs : Forall (λ p, p < 2) [0; 1]).
  { repeat (constructor; [lia|]). constructor. }
  assert (Hx : Forall (λ sigma : list Z, length sigma = 2)
                 [[0; 1]; [1; 1]]%Z).
  { repeat (constructor; [reflexivity|]). constructor. }
  split; [exact Hq|]. split; [exact Hqs|]. split; [exact Hx|].
  exact (proj2 (proj2 (proj2
    (get_conn_padded_shape (mkHilbert (0, 1)%Z 2) 0 [0; 1] PI
       [[0; 1]; [1; 1]]%Z 2 Hq Hqs Hx)))).
Defined.

Lemma Hadamard_multi_amplitudes_witness :
  Forall (λ p, p < length [0; 1]%Z) [0; 1]
  ∧ ∃ conns mels,
      get_conns_and_mels_Hadamard_multiple [0; 1]%Z [0; 1] (0, 1)%Z
      = Some (conns, mels)
      ∧ Forall (λ m, m = (1 / sqrt (2 ^ 2))%R
                     ∨ m = (- (1 / sqrt (2 ^ 2)))%R) mels.
Proof.
  assert (Hqs : Forall (λ p, p < length [0; 1]%Z) [0; 1]).
  { repeat (constructor; [simpl; lia|]). constructor. }
  exact (conj Hqs (Hadamard_multi_amplitudes [0; 1]%Z [0; 1] (0, 1)%Z Hqs)).
Defined.

(** Target 1 given twice: the connections of the counters 1 and 2 are the
    same configuration. *)
Lemma Hadamard_multi_repeated_target_witness :
  Forall (λ p, p < length [0; 1]%Z) [1; 1]
  ∧ 0 ≠ 1
  ∧ [1; 1] !! 0 = Some 1
  ∧ [1; 1] !! 1 = Some 1
  ∧ ∃ conns mels c,
      get_conns_and_mels_Hadamard_multiple [0; 1]%Z [1; 1] (0, 1)%Z
      = Some (conns, mels)
      ∧ 2 ^ 0 ≠ 2 ^ 1
      ∧ conns !! (2 ^ 0) = Some c
      ∧ conns !! (2 ^ 1) = Some c.
Proof.
  assert (Hqs : Forall (λ p, p < length [0; 1]%Z) [1; 1]).
  { repeat (constructor; [simpl; lia|]). constructor. }
  assert (Hne : 0 ≠ 1) by discriminate.
  exact (conj Hqs
           (conj Hne
              (conj eq_refl
                 (conj eq_refl
                    (Hadamard_multi_repeated_target [0; 1]%Z [1; 1] (0, 1)%Z
                       0 1 1 Hqs Hne eq_refl eq_refl))))).
Defined.
